(** * apng-canvas: the APNG parser ([src/parsers/parse_apng.ts])

    A shallow embedding of the chunk walker [parseChunks], the chunk
    writer [makeChunkBytes] and the promise executor of the default export
    (pre-scan, extraction visitor, play-count policy, frame synthesis),
    with the properties the specification states about them.

    Conventions.
    - A [Uint8Array] over the whole input buffer is a [list byte]; a
      [subarray] of it is a [view] (begin and end offsets into the same
      storage), so that writes through a view are seen by every alias.
    - JS integers are [Z]; the frame delay, a JS double, is a rational [Q]
      (the quotient [1000 * N / D] is kept exact).
    - A closure that captures mutable variables is a function on an
      explicit state.
    - A thrown exception is the [Throw] case of [completion]. *)

From Stdlib Require Import ZArith List String Ascii Bool Lia QArith.
From Stdlib.Strings Require Import Byte.
Import ListNotations.
Open Scope Z_scope.

Set Implicit Arguments.

(** ** Typed arrays *)

Definition Uint8Array := list byte.

Definition byte_to_Z (b : byte) : Z := Z.of_N (Byte.to_N b).

(** Storing a number into a [Uint8Array] element keeps its low 8 bits. *)
Definition ToUint8 (x : Z) : byte :=
  match Byte.of_N (Z.to_N (x mod 256)) with
  | Some b => b
  | None => x00
  end.

Definition byteLength (bytes : Uint8Array) : Z := Z.of_nat (List.length bytes).

(** [bytes[i]]: [None] is JS [undefined], the value of an index outside the
    array. *)
Definition get (bytes : Uint8Array) (i : Z) : option byte :=
  if i <? 0 then None else nth_error bytes (Z.to_nat i).

(** The bytes of [bytes] from offset [b] (inclusive) to [e] (exclusive). *)
Definition slice (bytes : Uint8Array) (b e : Z) : Uint8Array :=
  firstn (Z.to_nat (e - b)) (skipn (Z.to_nat b) bytes).

(** A [subarray] of the input array: a window on the same storage. *)
Record view : Type := { v_begin : Z; v_end : Z }.

Definition clampIndex (len i : Z) : Z :=
  if i <? 0 then Z.max (len + i) 0 else Z.min i len.

(** [bytes.subarray(b, e)]: both indices are clamped to the array, and an
    end before the begin gives an empty view. *)
Definition subarray (bytes : Uint8Array) (b e : Z) : view :=
  let len := byteLength bytes in
  let b' := clampIndex len b in
  let e' := clampIndex len e in
  {| v_begin := b'; v_end := Z.max b' e' |}.

Definition viewLength (v : view) : Z := v_end v - v_begin v.

Definition contents (bytes : Uint8Array) (v : view) : Uint8Array :=
  slice bytes (v_begin v) (v_end v).

(** ** Completions: a value or a thrown exception *)

Inductive jsError : Type :=
| TypeError
| RangeError.

Inductive completion (A : Type) : Type :=
| Normal (a : A)
| Throw (e : jsError).

Arguments Normal {A} a.
Arguments Throw {A} e.

Definition bind {A B : Type} (c : completion A) (k : A -> completion B)
  : completion B :=
  match c with
  | Normal a => k a
  | Throw e => Throw e
  end.

Notation "x <- c ;; k" := (bind c (fun x => k))
  (at level 61, c at next level, right associativity).

(** The array with the elements from [pos] on replaced by those of [src]. *)
Definition overwrite (target : Uint8Array) (pos : Z) (src : list byte)
  : Uint8Array :=
  firstn (Z.to_nat pos) target ++ src
  ++ skipn (Z.to_nat pos + List.length src) target.

(** [target.set(src, pos)] on a typed array: a [RangeError] when the source
    does not fit, otherwise the elements are overwritten in place. *)
Definition Uint8Array_set (target : Uint8Array) (src : list byte) (pos : Z)
  : completion Uint8Array :=
  if (pos <? 0) || (byteLength target <? pos + byteLength src) then
    Throw RangeError
  else
    Normal (overwrite target pos src).

(** [v.set(src, pos)] on a view of [bytes]: the write lands in the shared
    storage at [v_begin v + pos]. *)
Definition view_set (bytes : Uint8Array) (v : view) (src : list byte) (pos : Z)
  : completion Uint8Array :=
  if (pos <? 0) || (viewLength v <? pos + byteLength src) then
    Throw RangeError
  else
    Uint8Array_set bytes src (v_begin v + pos).

(** ** The helpers of [parse_base] *)

(** The value of an element inside integer arithmetic: [undefined] counts
    as 0. *)
Definition ToInt (x : option byte) : Z :=
  match x with
  | Some b => byte_to_Z b
  | None => 0
  end.

(** Modelled from the spec: [readDWord] of [parse_base] is not part of the
    sources at hand.  Chunk lengths and the 32-bit fields are "big-endian
    32-bit" (sections 4.2 and 4.3); the source passes [true] as its third
    argument at every call. *)
Definition readDWord (bytes : Uint8Array) (off : Z) : Z :=
  Z.shiftl (ToInt (get bytes off)) 24
  + Z.shiftl (ToInt (get bytes (off + 1))) 16
  + Z.shiftl (ToInt (get bytes (off + 2))) 8
  + ToInt (get bytes (off + 3)).

(** Modelled from the spec: [readWord] of [parse_base] is missing; the delay
    numerator and denominator are "big-endian 16-bit fields" (section 4.3). *)
Definition readWord (bytes : Uint8Array) (off : Z) : Z :=
  Z.shiftl (ToInt (get bytes off)) 8 + ToInt (get bytes (off + 1)).

(** Modelled from the spec: [readByte] of [parse_base] is missing; dispose
    and blend codes are "single bytes at fixed sub-offsets" (section 4.3). *)
Definition readByte (bytes : Uint8Array) (off : Z) : option Z :=
  option_map byte_to_Z (get bytes off).

(** Modelled from the spec: [readString] of [parse_base] is missing; the type
    tag is "a 4-byte type tag (interpreted as 4 printable characters)"
    (section 4.2): one character per byte of the range. *)
Definition readString (bytes : Uint8Array) (off len : Z) : string :=
  string_of_list_byte (contents bytes (subarray bytes off (off + len))).

(** Modelled from the spec: [subBuffer] of [parse_base] is missing; the
    prologue and epilogue groups hold "raw, untouched chunk byte ranges
    (length+tag+data+crc, verbatim)" (section 3): a copy of the range. *)
Definition subBuffer (bytes : Uint8Array) (start len : Z) : Uint8Array :=
  contents bytes (subarray bytes start (start + len)).

(** Modelled from the spec: [makeDWordArray] of [parse_base] is missing;
    chunk wrapping writes the length and the checksum "big-endian"
    (section 4.4): the four bytes of the low 32 bits, most significant
    first. *)
Definition makeDWordArray (x : Z) : list byte :=
  [ ToUint8 (Z.land (Z.shiftr x 24) 255);
    ToUint8 (Z.land (Z.shiftr x 16) 255);
    ToUint8 (Z.land (Z.shiftr x 8) 255);
    ToUint8 (Z.land x 255) ].

(** Modelled from the spec: [makeStringArray] of [parse_base] is missing;
    chunk wrapping writes "the 4-character type tag" (section 4.4): one
    character code per character. *)
Definition makeStringArray (s : string) : list byte :=
  list_byte_of_string s.

(** ** The chunk walker *)

(** The visitor of [parseChunks]: it gets the type tag, the array, the chunk
    start offset and the declared length, and answers whether to go on.  The
    variables its closure captures are the state [S]. *)
Definition ParseCallback (S : Type) : Type :=
  string -> Uint8Array -> Z -> Z -> S -> bool * S.

(** One call of the visitor, as the walker made it. *)
Record visit : Type := {
  vis_type : string;
  vis_off : Z;
  vis_length : Z;
  vis_res : bool
}.

Record walk (S : Type) : Type := {
  walk_state : S;          (* the captured variables after the last call *)
  walk_off : Z;            (* [off] when the loop is left *)
  walk_visits : list visit (* the calls of the visitor, in order *)
}.

(** The [do ... while] loop of [parseChunks] from offset [off].  [fuel]
    bounds the number of iterations; [None] means it ran out. *)
Fixpoint parseChunks_loop {S : Type} (fuel : nat) (bytes : Uint8Array)
    (callback : ParseCallback S) (off : Z) (s : S) : option (walk S) :=
  match fuel with
  | O => None
  | Datatypes.S fuel' =>
      let length := readDWord bytes off in
      let type := readString bytes (off + 4) 4 in
      let '(res, s1) := callback type bytes off length s in
      let v := {| vis_type := type; vis_off := off;
                  vis_length := length; vis_res := res |} in
      let off1 := off + (12 + length) in
      if res && negb (type =? "IEND")%string && (off1 <? byteLength bytes) then
        match parseChunks_loop fuel' bytes callback off1 s1 with
        | Some w =>
            Some {| walk_state := walk_state w; walk_off := walk_off w;
                    walk_visits := v :: walk_visits w |}
        | None => None
        end
      else
        Some {| walk_state := s1; walk_off := off1; walk_visits := [v] |}
  end.

(** Every iteration moves [off] forward by at least 12, so one more
    iteration than the array has bytes is always enough. *)
Definition parseChunks_fuel (bytes : Uint8Array) : nat :=
  Datatypes.S (List.length bytes).

Definition parseChunks {S : Type} (bytes : Uint8Array)
    (callback : ParseCallback S) (s : S) : walk S :=
  match parseChunks_loop (parseChunks_fuel bytes) bytes callback 8 s with
  | Some w => w
  | None => {| walk_state := s; walk_off := 8; walk_visits := [] |}
  end.

(** ** The Checksum Unit *)

(** Modelled from the spec: [crc32] is not part of the sources at hand.  It
    "returns the 32-bit CRC over that range using the standard IEEE 802.3
    polynomial (same table-driven algorithm used by the PNG chunk format)"
    (section 4.1): the reflected polynomial [0xEDB88320], register
    initialised to all ones and complemented at the end. *)
Definition crc_shift (c : Z) : Z :=
  if Z.testbit c 0 then Z.lxor 0xEDB88320 (Z.shiftr c 1) else Z.shiftr c 1.

(** Modelled from the spec: the entry of the table of [crc32] for [i], eight
    shifts of the polynomial division. *)
Definition crc_table (i : Z) : Z :=
  crc_shift (crc_shift (crc_shift (crc_shift
    (crc_shift (crc_shift (crc_shift (crc_shift i))))))).

(** Modelled from the spec: the step of [crc32] for one byte. *)
Definition crc_update (crc : Z) (b : byte) : Z :=
  Z.lxor (Z.shiftr crc 8) (crc_table (Z.land (Z.lxor crc (byte_to_Z b)) 255)).

(** Modelled from the spec: the CRC-32 of a sequence of bytes. *)
Definition crc_bytes (l : list byte) : Z :=
  Z.lxor (fold_left crc_update l 0xFFFFFFFF) 0xFFFFFFFF.

(** Modelled from the spec: [crc32(bytes, start, length)], the CRC-32 "over
    that range" of the buffer (section 4.1). *)
Definition crc32 (bytes : Uint8Array) (start length : Z) : Z :=
  crc_bytes (slice bytes start (start + length)).

(** ** The chunk writer *)

Definition makeChunkBytes (type : string) (dataBytes : Uint8Array)
  : completion Uint8Array :=
  let crcLen := Z.of_nat (String.length type) + byteLength dataBytes in
  let bytes := repeat x00 (Z.to_nat (crcLen + 8)) in
  bytes <- Uint8Array_set bytes (makeDWordArray (byteLength dataBytes)) 0 ;;
  bytes <- Uint8Array_set bytes (makeStringArray type) 4 ;;
  bytes <- Uint8Array_set bytes dataBytes 8 ;;
  let crc := crc32 bytes 4 crcLen in
  Uint8Array_set bytes (makeDWordArray crc) (crcLen + 4).

(** ** The Animation model *)

Module Frame.
Record t : Type := {
  width : Z;
  height : Z;
  left : Z;
  top : Z;
  delay : Q;
  disposeOp : option Z;            (* [None]: read past the end *)
  blendOp : option Z;
  dataParts : option (list view);  (* [None] once deleted *)
  img : option nat                 (* the image element of frame [f] *)
}.

Definition withDataParts (f : t) (parts : option (list view)) : t :=
  {| width := width f; height := height f; left := left f; top := top f;
     delay := delay f; disposeOp := disposeOp f; blendOp := blendOp f;
     dataParts := parts; img := img f |}.

Definition withImg (f : t) (i : option nat) : t :=
  {| width := width f; height := height f; left := left f; top := top f;
     delay := delay f; disposeOp := disposeOp f; blendOp := blendOp f;
     dataParts := dataParts f; img := i |}.

(** [frame.dataParts!.push(part)].  Every frame the visitor holds was
    created with a [dataParts] array, so the second case is not reached
    (lemma [extract_frame_has_dataParts]). *)
Definition pushDataPart (f : t) (part : view) : t :=
  match dataParts f with
  | Some parts => withDataParts f (Some (parts ++ [part]))
  | None => f
  end.
End Frame.

Module Animation.
Record t : Type := {
  width : Z;
  height : Z;
  numPlays : Z;
  playTime : Q;
  frames : list Frame.t
}.

(** Modelled from the spec: the [Animation] class of [utils/animation] is
    not part of the sources at hand; an Animation is "created empty at the
    start of a parse operation" (section 3), [playTime] being an
    accumulated sum and [frames] an append-only sequence. *)
Definition new : t :=
  {| width := 0; height := 0; numPlays := 0; playTime := 0%Q; frames := [] |}.

Definition withSize (a : t) (w h : Z) : t :=
  {| width := w; height := h; numPlays := numPlays a;
     playTime := playTime a; frames := frames a |}.

Definition withNumPlays (a : t) (n : Z) : t :=
  {| width := width a; height := height a; numPlays := n;
     playTime := playTime a; frames := frames a |}.

Definition addPlayTime (a : t) (d : Q) : t :=
  {| width := width a; height := height a; numPlays := numPlays a;
     playTime := (playTime a + d)%Q; frames := frames a |}.

Definition pushFrame (a : t) (f : Frame.t) : t :=
  {| width := width a; height := height a; numPlays := numPlays a;
     playTime := playTime a; frames := frames a ++ [f] |}.

Definition withFrames (a : t) (fs : list Frame.t) : t :=
  {| width := width a; height := height a; numPlays := numPlays a;
     playTime := playTime a; frames := fs |}.
End Animation.

(** Modelled from the spec: [support.PNG_SIGNATURE_BYTES] of [utils/support]
    is not part of the sources at hand; it is "the 8-byte PNG format
    signature" (section 6). *)
Definition PNG_SIGNATURE_BYTES : Uint8Array :=
  [x89; x50; x4e; x47; x0d; x0a; x1a; x0a].

Record ParseOptions : Type := {
  ignoreSingle : bool;
  forceLoop : bool
}.

(** ** The two visitors *)

(** The pre-scan ("fast animation test"); its state is [isAnimated]. *)
Definition prescan : ParseCallback bool :=
  fun type _bytes _off _length isAnimated =>
    if (type =? "acTL")%string then (false, true) else (true, isAnimated).

(** The variables captured by the extraction visitor. *)
Record builder : Type := {
  anim : Animation.t;
  headerDataBytes : option view;
  frame : option Frame.t;
  preDataParts : list Uint8Array;
  postDataParts : list Uint8Array
}.

Definition builder_init : builder :=
  {| anim := Animation.new; headerDataBytes := None; frame := None;
     preDataParts := []; postDataParts := [] |}.

(** [if (frame) anim.frames.push(frame)] *)
Definition finalize (a : Animation.t) (frame : option Frame.t) : Animation.t :=
  match frame with
  | Some f => Animation.pushFrame a f
  | None => a
  end.

(** Lines 62 to 67: the delay of a frame-control chunk, in milliseconds. *)
Definition fcTL_delay (delayN delayD : Z) : Q :=
  let delayD := if delayD =? 0 then 100 else delayD in
  let delay := (inject_Z 1000 * inject_Z delayN / inject_Z delayD)%Q in
  if Qle_bool delay (inject_Z 10) then inject_Z 100 else delay.

Definition extract : ParseCallback builder :=
  fun type bytes off length st =>
    (true,
     if (type =? "IHDR")%string then
       {| anim := Animation.withSize (anim st)
                    (readDWord bytes (off + 8)) (readDWord bytes (off + 12));
          headerDataBytes := Some (subarray bytes (off + 8) (off + 8 + length));
          frame := frame st;
          preDataParts := preDataParts st;
          postDataParts := postDataParts st |}
     else if (type =? "acTL")%string then
       {| anim := Animation.withNumPlays (anim st)
                    (readDWord bytes (off + 8 + 4));
          headerDataBytes := headerDataBytes st;
          frame := frame st;
          preDataParts := preDataParts st;
          postDataParts := postDataParts st |}
     else if (type =? "fcTL")%string then
       let delay := fcTL_delay (readWord bytes (off + 8 + 20))
                               (readWord bytes (off + 8 + 22)) in
       {| anim := Animation.addPlayTime (finalize (anim st) (frame st)) delay;
          headerDataBytes := headerDataBytes st;
          frame := Some
            {| Frame.width := readDWord bytes (off + 8 + 4);
               Frame.height := readDWord bytes (off + 8 + 8);
               Frame.left := readDWord bytes (off + 8 + 12);
               Frame.top := readDWord bytes (off + 8 + 16);
               Frame.delay := delay;
               Frame.disposeOp := readByte bytes (off + 8 + 24);
               Frame.blendOp := readByte bytes (off + 8 + 25);
               Frame.dataParts := Some [];
               Frame.img := None |};
          preDataParts := preDataParts st;
          postDataParts := postDataParts st |}
     else if (type =? "fdAT")%string then
       {| anim := anim st;
          headerDataBytes := headerDataBytes st;
          frame :=
            match frame st with
            | Some f =>
                Some (Frame.pushDataPart f
                        (subarray bytes (off + 8 + 4) (off + 8 + length)))
            | None => None
            end;
          preDataParts := preDataParts st;
          postDataParts := postDataParts st |}
     else if (type =? "IDAT")%string then
       match frame st with
       | Some f =>
           {| anim := anim st;
              headerDataBytes := headerDataBytes st;
              frame := Some (Frame.pushDataPart f
                               (subarray bytes (off + 8) (off + 8 + length)));
              preDataParts := preDataParts st;
              postDataParts := postDataParts st |}
       | None =>
           {| anim := Animation.addPlayTime (anim st) (inject_Z 100);
              headerDataBytes := headerDataBytes st;
              frame := Some
                {| Frame.width := Animation.width (anim st);
                   Frame.height := Animation.height (anim st);
                   Frame.left := 0;
                   Frame.top := 0;
                   Frame.delay := inject_Z 100;
                   Frame.disposeOp := Some 1;
                   Frame.blendOp := Some 1;
                   Frame.dataParts :=
                     Some [subarray bytes (off + 8) (off + 8 + length)];
                   Frame.img := None |};
              preDataParts := preDataParts st;
              postDataParts := postDataParts st |}
       end
     else if (type =? "IEND")%string then
       {| anim := anim st;
          headerDataBytes := headerDataBytes st;
          frame := frame st;
          preDataParts := preDataParts st;
          postDataParts :=
            postDataParts st ++ [subBuffer bytes off (12 + length)] |}
     else
       {| anim := anim st;
          headerDataBytes := headerDataBytes st;
          frame := frame st;
          preDataParts :=
            preDataParts st ++ [subBuffer bytes off (12 + length)];
          postDataParts := postDataParts st |}).

(** ** Frame synthesis *)

(** [new Blob(parts)]: the bytes of the parts, one after the other. *)
Definition Blob (parts : list Uint8Array) : Uint8Array := List.concat parts.

(** [makeChunkBytes("IDAT", frame.dataParts[j])] for every [j], in order. *)
Fixpoint wrapDataParts (bytes : Uint8Array) (parts : list view)
  : completion (list Uint8Array) :=
  match parts with
  | [] => Normal []
  | part :: rest =>
      c <- makeChunkBytes "IDAT" (contents bytes part) ;;
      cs <- wrapDataParts bytes rest ;;
      Normal (c :: cs)
  end.

(** The body of the loop over [anim.frames] up to the creation of the blob
    (lines 117 to 127).  It answers the input buffer as the writes through
    [headerDataBytes] left it, and the blob or the exception thrown. *)
Definition synthFrame (headerDataBytes : option view)
    (preBlob postBlob : Uint8Array) (bytes : Uint8Array) (frame : Frame.t)
  : Uint8Array * completion Uint8Array :=
  match headerDataBytes with
  | None => (bytes, Throw TypeError)
  | Some hdr =>
      match view_set bytes hdr (makeDWordArray (Frame.width frame)) 0 with
      | Throw e => (bytes, Throw e)
      | Normal bytes1 =>
          match view_set bytes1 hdr (makeDWordArray (Frame.height frame)) 4 with
          | Throw e => (bytes1, Throw e)
          | Normal bytes2 =>
              (bytes2,
               ihdr <- makeChunkBytes "IHDR" (contents bytes2 hdr) ;;
               idats <- match Frame.dataParts frame with
                        | Some parts => wrapDataParts bytes2 parts
                        | None => Throw TypeError
                        end ;;
               Normal (Blob ([PNG_SIGNATURE_BYTES; ihdr; preBlob]
                             ++ idats ++ [postBlob])))
          end
      end
  end.

Record synthesis : Type := {
  syn_bytes : Uint8Array;        (* the input buffer afterwards *)
  syn_frames : list Frame.t;     (* [anim.frames] afterwards *)
  syn_urls : list Uint8Array;    (* the blobs given to [createObjectURL] *)
  syn_thrown : option jsError    (* the exception that ended the loop *)
}.

(** The loop [for (f = 0; f < anim.frames.length; f++)], on the frames from
    index [f] on. *)
Fixpoint synthFrames (headerDataBytes : option view)
    (preBlob postBlob : Uint8Array) (bytes : Uint8Array)
    (frames : list Frame.t) (f : nat) : synthesis :=
  match frames with
  | [] => {| syn_bytes := bytes; syn_frames := []; syn_urls := [];
             syn_thrown := None |}
  | frame :: rest =>
      match synthFrame headerDataBytes preBlob postBlob bytes frame with
      | (bytes', Throw e) =>
          {| syn_bytes := bytes'; syn_frames := frame :: rest;
             syn_urls := []; syn_thrown := Some e |}
      | (bytes', Normal url) =>
          let frame' :=
            Frame.withImg (Frame.withDataParts frame None) (Some f) in
          let r := synthFrames headerDataBytes preBlob postBlob bytes' rest
                     (Datatypes.S f) in
          {| syn_bytes := syn_bytes r; syn_frames := frame' :: syn_frames r;
             syn_urls := url :: syn_urls r; syn_thrown := syn_thrown r |}
      end
  end.

(** ** The promise *)

Inductive reason : Type :=
| NotAnimated          (* "Not an animated PNG" *)
| ImageCreationError   (* "Image creation error" *)
| Exception (e : jsError).

Inductive promise : Type :=
| Pending
| Fulfilled (a : Animation.t)
| Rejected (r : reason).

(** [resolve] and [reject] act on a pending promise only. *)
Definition settle (p : promise) (result : promise) : promise :=
  match p with
  | Pending => result
  | _ => p
  end.

(** What the executor of [new Promise(...)] leaves behind when it returns. *)
Record executed : Type := {
  ex_promise : promise;
  ex_bytes : Uint8Array;           (* the caller's buffer *)
  ex_anim : option Animation.t;    (* [anim], once it is created *)
  ex_urls : list Uint8Array        (* one blob per image element created *)
}.

(** The play-count policy of lines 102 to 109; [None] is the [reject]. *)
Definition playCount (options : ParseOptions) (a : Animation.t)
  : option Animation.t :=
  if (Z.of_nat (List.length (Animation.frames a)) <=? 1) then
    if ignoreSingle options then None
    else Some (Animation.withNumPlays a 1)
  else if forceLoop options then Some (Animation.withNumPlays a 0)
  else Some a.

(** The extraction pass with its end-of-pass finalisation (line 100). *)
Definition extraction (bytes : Uint8Array) : builder :=
  let st := walk_state (parseChunks bytes extract builder_init) in
  {| anim := finalize (anim st) (frame st);
     headerDataBytes := headerDataBytes st;
     frame := frame st;
     preDataParts := preDataParts st;
     postDataParts := postDataParts st |}.

(** The default export, up to the return of the promise executor. *)
Definition parse (buffer : Uint8Array) (options : ParseOptions) : executed :=
  let bytes := buffer in
  let isAnimated := walk_state (parseChunks bytes prescan false) in
  if negb isAnimated && ignoreSingle options then
    {| ex_promise := Rejected NotAnimated; ex_bytes := bytes;
       ex_anim := None; ex_urls := [] |}
  else
    let st := extraction bytes in
    match playCount options (anim st) with
    | None =>
        {| ex_promise := Rejected NotAnimated; ex_bytes := bytes;
           ex_anim := Some (anim st); ex_urls := [] |}
    | Some a =>
        let preBlob := Blob (preDataParts st) in
        let postBlob := Blob (postDataParts st) in
        let r := synthFrames (headerDataBytes st) preBlob postBlob bytes
                   (Animation.frames a) 0 in
        {| ex_promise :=
             match syn_thrown r with
             | Some e => Rejected (Exception e)
             | None => Pending
             end;
           ex_bytes := syn_bytes r;
           ex_anim := Some (Animation.withFrames a (syn_frames r));
           ex_urls := syn_urls r |}
    end.

(** ** After the executor: the image events *)

Inductive event : Type :=
| Load (f : nat)    (* [onload] of the image of frame [f] *)
| Error (f : nat).  (* [onerror] of the image of frame [f] *)

Record page : Type := {
  pg_promise : promise;
  pg_anim : option Animation.t;
  pg_createdImages : Z;
  pg_images : list nat   (* images whose handlers may still run *)
}.

Definition page_of (e : executed) : page :=
  {| pg_promise := ex_promise e;
     pg_anim := ex_anim e;
     pg_createdImages := 0;
     pg_images := seq 0 (List.length (ex_urls e)) |}.

Definition frameCount (a : option Animation.t) : Z :=
  match a with
  | Some a => Z.of_nat (List.length (Animation.frames a))
  | None => 0
  end.

Definition remove_image (f : nat) (l : list nat) : list nat :=
  filter (fun g => negb (Nat.eqb f g)) l.

(** One event; [None] when no handler is installed for it (no such image,
    or the image already reported). *)
Definition fire (p : page) (e : event) : option page :=
  match e with
  | Load f =>
      if existsb (Nat.eqb f) (pg_images p) then
        let created := pg_createdImages p + 1 in
        Some {| pg_promise :=
                  if created =? frameCount (pg_anim p) then
                    match pg_anim p with
                    | Some a => settle (pg_promise p) (Fulfilled a)
                    | None => pg_promise p
                    end
                  else pg_promise p;
                pg_anim := pg_anim p;
                pg_createdImages := created;
                pg_images := remove_image f (pg_images p) |}
      else None
  | Error f =>
      if existsb (Nat.eqb f) (pg_images p) then
        Some {| pg_promise := settle (pg_promise p) (Rejected ImageCreationError);
                pg_anim := pg_anim p;
                pg_createdImages := pg_createdImages p;
                pg_images := remove_image f (pg_images p) |}
      else None
  end.

(** The pages reachable from [p] by the events that can happen. *)
Inductive reachable (p : page) : page -> Prop :=
| reach_refl : reachable p p
| reach_step : forall q e r,
    reachable p q -> fire q e = Some r -> reachable p r.

(** ** Reading a walk *)

(** The bytes a list of visits has moved the offset forward. *)
Definition consumed (vs : list visit) : Z :=
  fold_right (fun v n => 12 + vis_length v + n) 0 vs.

(** The visitor's captured variables after it was called for [v]. *)
Definition visitor_step {S : Type} (callback : ParseCallback S)
    (bytes : Uint8Array) (s : S) (v : visit) : S :=
  snd (callback (vis_type v) bytes (vis_off v) (vis_length v) s).

Definition state_after {S : Type} (callback : ParseCallback S)
    (bytes : Uint8Array) (s : S) (vs : list visit) : S :=
  fold_left (visitor_step callback bytes) vs s.

(** The loop condition of [parseChunks] after the visit [v]. *)
Definition stops (bytes : Uint8Array) (v : visit) : Prop :=
  vis_res v = false \/ vis_type v = "IEND"%string
  \/ byteLength bytes <= vis_off v + (12 + vis_length v).

(** The visits of a walk for chunks of type [tag]. *)
Definition hasType (tag : string) (v : visit) : bool :=
  (vis_type v =? tag)%string.

Definition tagCount (tag : string) (vs : list visit) : nat :=
  List.length (filter (hasType tag) vs).

(** Whether an "IDAT" chunk is visited before the first "fcTL" chunk. *)
Fixpoint idatBeforeFcTL (vs : list visit) : bool :=
  match vs with
  | [] => false
  | v :: vs' =>
      if hasType "fcTL" v then false
      else if hasType "IDAT" v then true
      else idatBeforeFcTL vs'
  end.

(** The frames so far, the one in progress included. *)
Definition frames_so_far (st : builder) : nat :=
  List.length (Animation.frames (anim st))
  + match frame st with Some _ => 1 | None => 0 end.

(** [frame.dataParts], empty when the property is absent. *)
Definition partsOf (f : Frame.t) : list view :=
  match Frame.dataParts f with
  | Some parts => parts
  | None => []
  end.

(** A view that lies inside an array of [len] elements. *)
Definition validView (len : Z) (v : view) : Prop :=
  0 <= v_begin v <= v_end v /\ v_end v <= len.

(** A view that the writes to the first eight bytes at [b] do not touch. *)
Definition clearOf (b : Z) (p : view) : Prop :=
  0 <= v_begin p
  /\ (v_end p <= v_begin p \/ v_end p <= b \/ b + 8 <= v_begin p).

(** The buffer [bytes] during synthesis: the input [bytes0] as it came, or
    with the eight bytes at the start of the header view [h] rewritten. *)
Definition headerRewritten (bytes0 : Uint8Array) (h : view)
    (bytes : Uint8Array) : Prop :=
  bytes = bytes0
  \/ exists dims, List.length dims = 8%nat
                  /\ bytes = overwrite bytes0 (v_begin h) dims.

(** The view the extraction visitor takes of the payload of a data chunk:
    all of it for "IDAT", all but the 4-byte sequence number for "fdAT". *)
Definition dataPartOf (bytes : Uint8Array) (v : visit) (p : view) : Prop :=
  (vis_type v = "IDAT"%string
   /\ p = subarray bytes (vis_off v + 8) (vis_off v + 8 + vis_length v))
  \/ (vis_type v = "fdAT"%string
      /\ p = subarray bytes (vis_off v + 8 + 4) (vis_off v + 8 + vis_length v)).

(** A frame whose data parts all come from data chunks among [vs]. *)
Definition partsFrom (bytes : Uint8Array) (vs : list visit) (f : Frame.t)
  : Prop :=
  exists parts, Frame.dataParts f = Some parts
    /\ Forall (fun p => exists v, In v vs /\ dataPartOf bytes v p) parts.

(** The view the extraction visitor takes of the payload of an "IHDR"
    chunk. *)
Definition headerOf (bytes : Uint8Array) (v : visit) (h : view) : Prop :=
  vis_type v = "IHDR"%string
  /\ h = subarray bytes (vis_off v + 8) (vis_off v + 8 + vis_length v).

(** The copy the extraction visitor keeps of a whole chunk. *)
Definition chunkCopy (bytes : Uint8Array) (v : visit) : Uint8Array :=
  subBuffer bytes (vis_off v) (12 + vis_length v).

(** What the extraction visitor has built from the visits [vs]: frames whose
    data parts come from data chunks among [vs], and a header view taken
    from an "IHDR" chunk among [vs]. *)
Definition builtFrom (bytes : Uint8Array) (vs : list visit) (st : builder)
  : Prop :=
  Forall (partsFrom bytes vs) (Animation.frames (anim st))
  /\ (forall f, frame st = Some f -> partsFrom bytes vs f)
  /\ (forall h, headerDataBytes st = Some h ->
        exists v, In v vs /\ headerOf bytes v h).

(** The chunk types the extraction visitor has a case for. *)
Definition knownType (v : visit) : bool :=
  hasType "IHDR" v || hasType "acTL" v || hasType "fcTL" v
  || hasType "fdAT" v || hasType "IDAT" v || hasType "IEND" v.



(** ** The chunk layout in the words of the specification *)

(** "write big-endian length, write the 4-character type tag, write the
    payload, compute the checksum over (tag + payload) and write it
    big-endian" (section 4.4). *)
Definition spec_chunk (tag : string) (payload : list byte) : list byte :=
  makeDWordArray (byteLength payload)
  ++ makeStringArray tag
  ++ payload
  ++ makeDWordArray (crc_bytes (makeStringArray tag ++ payload)).

(** "the format signature, followed by a header chunk whose payload is the
    shared template with its width/height fields overwritten to this frame's
    width/height, followed by the prologue group verbatim, followed by one
    re-wrapped pixel-data chunk per entry in the frame's data-parts
    sequence, followed by the epilogue group verbatim" (section 4.4). *)
Definition spec_frameStream (template prologue epilogue : list byte)
    (w h : Z) (parts : list (list byte)) : list byte :=
  PNG_SIGNATURE_BYTES
  ++ spec_chunk "IHDR" (makeDWordArray w ++ makeDWordArray h ++ skipn 8 template)
  ++ prologue
  ++ List.concat (map (spec_chunk "IDAT") parts)
  ++ epilogue.

(** ** Sample inputs *)

(** [IHDR]: a 4 by 3 canvas. *)
Definition chunk_IHDR : Uint8Array :=
  [x00; x00; x00; x0d; x49; x48; x44; x52; x00; x00; x00; x04; x00; x00;
   x00; x03; x08; x06; x00; x00; x00; xb4; xf4; xae; xc6].

(** [gAMA]: an ancillary chunk. *)
Definition chunk_gAMA : Uint8Array :=
  [x00; x00; x00; x04; x67; x41; x4d; x41; x00; x00; xb1; x8f; x0b; xfc;
   x61; x05].

(** [acTL]: 2 frames, 2 plays. *)
Definition chunk_acTL : Uint8Array :=
  [x00; x00; x00; x08; x61; x63; x54; x4c; x00; x00; x00; x02; x00; x00;
   x00; x02; x1d; x83; xf2; x5c].

(** [fcTL]: sequence 0, 4 by 3 at (0, 0), delay 1/10 s. *)
Definition chunk_fcTL_0 : Uint8Array :=
  [x00; x00; x00; x1a; x66; x63; x54; x4c; x00; x00; x00; x00; x00; x00;
   x00; x04; x00; x00; x00; x03; x00; x00; x00; x00; x00; x00; x00; x00;
   x00; x01; x00; x0a; x00; x00; xcc; x73; x0c; xfb].

(** [IDAT] with the payload 01 02. *)
Definition chunk_IDAT : Uint8Array :=
  [x00; x00; x00; x02; x49; x44; x41; x54; x01; x02; x8b; xee; xed; xd7].

(** [fcTL]: sequence 1, 2 by 1 at (1, 1), delay 1/100 s. *)
Definition chunk_fcTL_1 : Uint8Array :=
  [x00; x00; x00; x1a; x66; x63; x54; x4c; x00; x00; x00; x01; x00; x00;
   x00; x02; x00; x00; x00; x01; x00; x00; x00; x01; x00; x00; x00; x01;
   x00; x01; x00; x64; x00; x01; x30; xed; x5e; x65].

(** [fdAT]: sequence 2, then the payload 03 04 05. *)
Definition chunk_fdAT : Uint8Array :=
  [x00; x00; x00; x07; x66; x64; x41; x54; x00; x00; x00; x02; x03; x04;
   x05; xaf; x26; xe4; xbc].

(** [IEND]. *)
Definition chunk_IEND : Uint8Array :=
  [x00; x00; x00; x00; x49; x45; x4e; x44; xae; x42; x60; x82].


(** An animation of two frames; the first frame is the default image. *)
Definition apng_two_frames : Uint8Array :=
  PNG_SIGNATURE_BYTES ++ chunk_IHDR ++ chunk_gAMA ++ chunk_acTL
  ++ chunk_fcTL_0 ++ chunk_IDAT ++ chunk_fcTL_1 ++ chunk_fdAT ++ chunk_IEND.

(** An animation whose default image is not one of its frames: the "IDAT"
    chunk comes before the first "fcTL" chunk. *)
Definition apng_default_image : Uint8Array :=
  PNG_SIGNATURE_BYTES ++ chunk_IHDR ++ chunk_acTL
  ++ chunk_IDAT ++ chunk_fcTL_1 ++ chunk_fdAT ++ chunk_IEND.

(** A plain PNG. *)
Definition png_static : Uint8Array :=
  PNG_SIGNATURE_BYTES ++ chunk_IHDR ++ chunk_IDAT ++ chunk_IEND.

(** A PNG without image data. *)
Definition png_no_data : Uint8Array :=
  PNG_SIGNATURE_BYTES ++ chunk_IHDR ++ chunk_IEND.


(** A buffer shorter than the signature. *)
Definition png_short : Uint8Array := [x89; x50; x4e].

(** The two frames the extraction pass makes of [apng_two_frames]. *)
Definition sample_frame_0 : Frame.t :=
  {| Frame.width := 4; Frame.height := 3; Frame.left := 0; Frame.top := 0;
     Frame.delay := fcTL_delay 1 10;
     Frame.disposeOp := Some 0; Frame.blendOp := Some 0;
     Frame.dataParts := Some [ {| v_begin := 115; v_end := 117 |} ];
     Frame.img := None |}.

Definition sample_frame_1 : Frame.t :=
  {| Frame.width := 2; Frame.height := 1; Frame.left := 1; Frame.top := 1;
     Frame.delay := fcTL_delay 1 100;
     Frame.disposeOp := Some 0; Frame.blendOp := Some 1;
     Frame.dataParts := Some [ {| v_begin := 171; v_end := 174 |} ];
     Frame.img := None |}.

Definition defaultOptions : ParseOptions :=
  {| ignoreSingle := false; forceLoop := false |}.

(** ** Further readings of a run *)


(** The events of a list, one after the other; [None] when one of them
    finds no handler. *)
Fixpoint fireAll (p : page) (es : list event) : option page :=
  match es with
  | [] => Some p
  | e :: es' =>
      match fire p e with
      | Some q => fireAll q es'
      | None => None
      end
  end.

(** [bytes] has the length of [bytes0] and differs from it at most in the
    eight bytes from offset [b] on. *)
Definition sameOutside (b : Z) (bytes0 bytes : Uint8Array) : Prop :=
  byteLength bytes = byteLength bytes0
  /\ forall x y, 0 <= x -> y <= b \/ b + 8 <= x ->
       slice bytes x y = slice bytes0 x y.

(** The metadata of a frame, which synthesis leaves alone. *)
Definition sameMetadata (f g : Frame.t) : Prop :=
  Frame.width g = Frame.width f /\ Frame.height g = Frame.height f
  /\ Frame.left g = Frame.left f /\ Frame.top g = Frame.top f
  /\ Frame.delay g = Frame.delay f
  /\ Frame.disposeOp g = Frame.disposeOp f
  /\ Frame.blendOp g = Frame.blendOp f.

(** An [IHDR] chunk with a payload of three bytes. *)
Definition chunk_IHDR_3 : Uint8Array :=
  [x00; x00; x00; x03; x49; x48; x44; x52; x00; x00; x00; x63; x83; x5e;
   x75].

(** An [IHDR] chunk with a payload of six bytes. *)
Definition chunk_IHDR_6 : Uint8Array :=
  [x00; x00; x00; x06; x49; x48; x44; x52; x00; x00; x00; x04; x00; x00;
   xfa; xfb; x79; x56].

(** Image data without a header chunk. *)
Definition png_no_header : Uint8Array :=
  PNG_SIGNATURE_BYTES ++ chunk_IDAT ++ chunk_IEND.

(** A header chunk too short to hold a width. *)
Definition png_short_header : Uint8Array :=
  PNG_SIGNATURE_BYTES ++ chunk_IHDR_3 ++ chunk_IDAT ++ chunk_IEND.

(** A header chunk that holds a width and half a height. *)
Definition png_half_header : Uint8Array :=
  PNG_SIGNATURE_BYTES ++ chunk_IHDR_6 ++ chunk_IDAT ++ chunk_IEND.

Definition forceLoopOptions : ParseOptions :=
  {| ignoreSingle := false; forceLoop := true |}.

(** * Properties *)

#[local] Arguments Z.add _ _ : simpl never.
#[local] Arguments Z.sub _ _ : simpl never.
#[local] Arguments Z.mul _ _ : simpl never.
#[local] Arguments Z.of_nat _ : simpl never.
#[local] Arguments Z.to_nat _ : simpl never.

(** ** Bytes and big-endian fields *)

Lemma byte_to_Z_range (b : byte) : 0 <= byte_to_Z b < 256.
Proof.
  unfold byte_to_Z. pose proof (Byte.to_N_bounded b). lia.
Qed.

Lemma ToInt_range (x : option byte) : 0 <= ToInt x < 256.
Proof.
  destruct x as [b|]; simpl; [apply byte_to_Z_range | lia].
Qed.

Lemma readDWord_range (bytes : Uint8Array) (off : Z) :
  0 <= readDWord bytes off < 2 ^ 32.
Proof.
  unfold readDWord. rewrite !Z.shiftl_mul_pow2 by lia.
  pose proof (ToInt_range (get bytes off)).
  pose proof (ToInt_range (get bytes (off + 1))).
  pose proof (ToInt_range (get bytes (off + 2))).
  pose proof (ToInt_range (get bytes (off + 3))).
  change (2 ^ 24) with 16777216. change (2 ^ 16) with 65536.
  change (2 ^ 8) with 256. change (2 ^ 32) with 4294967296. lia.
Qed.


(** ** The chunk walker *)

Lemma consumed_cons (v : visit) (vs : list visit) :
  consumed (v :: vs) = 12 + vis_length v + consumed vs.
Proof. reflexivity. Qed.

Lemma consumed_app (us vs : list visit) :
  consumed (us ++ vs) = consumed us + consumed vs.
Proof.
  induction us as [|u us IH]; [reflexivity|].
  rewrite <- app_comm_cons, !consumed_cons, IH. lia.
Qed.

Section Walker.
Context {S : Type}.
Variable bytes : Uint8Array.
Variable callback : ParseCallback S.

(** The loop never runs out of iterations when it is given more of them
    than there are bytes left. *)
Lemma parseChunks_loop_enough (fuel : nat) : forall (off : Z) (s : S),
  (Z.to_nat (byteLength bytes - off) < fuel)%nat ->
  exists w, parseChunks_loop fuel bytes callback off s = Some w.
Proof.
  induction fuel as [|fuel IH]; intros off s Hfuel; [lia|].
  cbn [parseChunks_loop].
  destruct (callback (readString bytes (off + 4) 4) bytes off
              (readDWord bytes off) s) as [res s1].
  destruct (res && negb (readString bytes (off + 4) 4 =? "IEND")%string
            && (off + (12 + readDWord bytes off) <? byteLength bytes)) eqn:Hgo.
  - apply andb_prop in Hgo. destruct Hgo as [_ Hlt].
    apply Z.ltb_lt in Hlt.
    pose proof (readDWord_range bytes off) as Hr.
    destruct (IH (off + (12 + readDWord bytes off)) s1) as [w Hw]; [lia|].
    rewrite Hw. eauto.
  - eauto.
Qed.

Lemma parseChunks_run (s : S) :
  parseChunks_loop (parseChunks_fuel bytes) bytes callback 8 s
  = Some (parseChunks bytes callback s).
Proof.
  unfold parseChunks.
  destruct (parseChunks_loop_enough (fuel := parseChunks_fuel bytes) 8 s)
    as [w Hw].
  - unfold parseChunks_fuel, byteLength. lia.
  - rewrite Hw. reflexivity.
Qed.

(** What a finished loop has done, whatever the number of iterations it
    was allowed. *)
Lemma parseChunks_loop_spec (fuel : nat) : forall (off : Z) (s : S) w,
  parseChunks_loop fuel bytes callback off s = Some w ->
  walk_visits w <> []
  /\ walk_state w = state_after callback bytes s (walk_visits w)
  /\ walk_off w = off + consumed (walk_visits w)
  /\ forall pre v post, walk_visits w = pre ++ v :: post ->
       vis_off v = off + consumed pre
       /\ vis_length v = readDWord bytes (vis_off v)
       /\ vis_type v = readString bytes (vis_off v + 4) 4
       /\ callback (vis_type v) bytes (vis_off v) (vis_length v)
            (state_after callback bytes s pre)
          = (vis_res v, state_after callback bytes s (pre ++ [v]))
       /\ (post = [] <-> stops bytes v).
Proof.
  induction fuel as [|fuel IH]; intros off s w Hrun; [discriminate|].
  cbn [parseChunks_loop] in Hrun.
  destruct (callback (readString bytes (off + 4) 4) bytes off
              (readDWord bytes off) s) as [res s1] eqn:Hcb.
  set (v0 := {| vis_type := readString bytes (off + 4) 4; vis_off := off;
                vis_length := readDWord bytes off; vis_res := res |}) in *.
  assert (Hs1 : forall l, state_after callback bytes s (v0 :: l)
                          = state_after callback bytes s1 l).
  { intros l. unfold state_after. cbn [fold_left].
    unfold visitor_step at 2. subst v0. cbn [vis_type vis_off vis_length].
    rewrite Hcb. reflexivity. }
  assert (Hhead : vis_off v0 = off + consumed []
      /\ vis_length v0 = readDWord bytes (vis_off v0)
      /\ vis_type v0 = readString bytes (vis_off v0 + 4) 4
      /\ callback (vis_type v0) bytes (vis_off v0) (vis_length v0)
           (state_after callback bytes s [])
         = (vis_res v0, state_after callback bytes s ([] ++ [v0]))).
  { subst v0. cbn [vis_type vis_off vis_length vis_res consumed fold_right app].
    repeat split; try lia.
    unfold state_after. cbn [fold_left]. unfold visitor_step.
    cbn [vis_type vis_off vis_length]. rewrite Hcb. reflexivity. }
  destruct (res && negb (readString bytes (off + 4) 4 =? "IEND")%string
            && (off + (12 + readDWord bytes off) <? byteLength bytes)) eqn:Hgo.
  - destruct (parseChunks_loop fuel bytes callback
                (off + (12 + readDWord bytes off)) s1) as [w1|] eqn:Hrec;
      [|discriminate].
    injection Hrun as <-. cbn [walk_visits walk_state walk_off].
    destruct (IH _ _ _ Hrec) as (Hne & Hst & Hoff & Hall).
    apply andb_prop in Hgo. destruct Hgo as [Hgo Hlt].
    apply andb_prop in Hgo. destruct Hgo as [Hres Htype].
    apply Z.ltb_lt in Hlt. apply negb_true_iff in Htype.
    apply String.eqb_neq in Htype.
    split; [discriminate|].
    split; [rewrite Hs1; exact Hst|].
    split; [rewrite Hoff, consumed_cons; subst v0; cbn [vis_length]; lia|].
    intros pre v post Heq. destruct pre as [|u pre].
    + cbn [app] in Heq. injection Heq as <- <-.
      destruct Hhead as (H1 & H2 & H3 & H4).
      repeat split; try assumption.
      * intros Hnil. elim (Hne Hnil).
      * unfold stops. subst v0. cbn [vis_type vis_off vis_length vis_res].
        intros [H|[H|H]]; [congruence | contradiction | lia].
    + rewrite <- app_comm_cons in Heq. injection Heq as <- Heq.
      destruct (Hall _ _ _ Heq) as (Ho & Hl & Ht & Hc & Hlast).
      repeat split; try assumption.
      * rewrite Ho, consumed_cons. subst v0. cbn [vis_length]. lia.
      * rewrite <- app_comm_cons, !Hs1. exact Hc.
      * apply Hlast.
      * apply Hlast.
  - injection Hrun as <-. cbn [walk_visits walk_state walk_off].
    split; [discriminate|].
    split; [rewrite Hs1; reflexivity|].
    split; [subst v0; unfold consumed; cbn [fold_right vis_length]; lia|].
    intros pre v post Heq.
    destruct pre as [|u pre].
    + cbn [app] in Heq. injection Heq as <- <-.
      destruct Hhead as (H1 & H2 & H3 & H4).
      repeat split; try assumption.
      unfold stops. subst v0. cbn [vis_type vis_off vis_length vis_res].
      apply andb_false_iff in Hgo. destruct Hgo as [Hgo|Hgo].
      * apply andb_false_iff in Hgo. destruct Hgo as [Hgo|Hgo].
        -- left. exact Hgo.
        -- right. left. apply negb_false_iff in Hgo.
           apply String.eqb_eq in Hgo. exact Hgo.
      * right. right. apply Z.ltb_ge in Hgo. lia.
    + rewrite <- app_comm_cons in Heq. injection Heq as _ Heq.
      destruct pre; discriminate.
Qed.

Lemma consumed_nonneg (vs : list visit) :
  Forall (fun v => 0 <= vis_length v) vs -> 0 <= consumed vs.
Proof.
  induction 1 as [|v vs Hv _ IH]; [change (consumed []) with 0; lia|].
  rewrite consumed_cons. lia.
Qed.

Lemma parseChunks_lengths_nonneg (s : S) :
  Forall (fun v => 0 <= vis_length v)
         (walk_visits (parseChunks bytes callback s)).
Proof.
  destruct (parseChunks_loop_spec _ _ _ (parseChunks_run s))
    as (_ & _ & _ & Hall).
  apply Forall_forall. intros v Hin.
  destruct (in_split _ _ Hin) as (pre & post & Heq).
  destruct (Hall _ _ _ Heq) as (_ & Hl & _).
  rewrite Hl. apply readDWord_range.
Qed.

(** C1. [parseChunks] returns for every buffer and every visitor.  Its
    first call of the visitor is for offset 8.  Every call is for the type
    tag and the big-endian length the buffer holds at the chunk's offset,
    in the state the earlier calls left; a chunk begins [12 + length]
    after the one before, so the chunks come in file order, each once.  A
    call is the last one exactly when the visitor answered [false], the
    type is "IEND", or the advanced offset is not below the buffer length.
    The offset has moved by the sum of [12 + length] over the visited
    chunks. *)
Theorem parseChunks_walks_chunks (s : S) :
  let w := parseChunks bytes callback s in
  parseChunks_loop (parseChunks_fuel bytes) bytes callback 8 s = Some w
  /\ (exists v vs, walk_visits w = v :: vs /\ vis_off v = 8)
  /\ (forall pre v post, walk_visits w = pre ++ v :: post ->
        vis_off v = 8 + consumed pre
        /\ vis_length v = readDWord bytes (vis_off v)
        /\ vis_type v = readString bytes (vis_off v + 4) 4
        /\ callback (vis_type v) bytes (vis_off v) (vis_length v)
             (state_after callback bytes s pre)
           = (vis_res v, state_after callback bytes s (pre ++ [v]))
        /\ (forall u post', post = u :: post' ->
              vis_off u = vis_off v + (12 + vis_length v))
        /\ Forall (fun u => vis_off v < vis_off u) post
        /\ (post = [] <-> stops bytes v))
  /\ walk_state w = state_after callback bytes s (walk_visits w)
  /\ walk_off w - 8 = consumed (walk_visits w).
Proof.
  intros w. subst w.
  pose proof (parseChunks_run s) as Hrun.
  pose proof (parseChunks_lengths_nonneg s) as Hlen.
  destruct (parseChunks_loop_spec _ _ _ Hrun) as (Hne & Hst & Hoff & Hall).
  split; [exact Hrun|].
  split.
  { destruct (walk_visits (parseChunks bytes callback s)) as [|v vs] eqn:Hvs;
      [contradiction|].
    exists v, vs. split; [reflexivity|].
    destruct (Hall [] v vs eq_refl) as (Ho & _).
    rewrite Ho. change (consumed []) with 0. lia. }
  split.
  { intros pre v post Heq.
    destruct (Hall _ _ _ Heq) as (Ho & Hl & Ht & Hc & Hlast).
    repeat split; try assumption; try apply Hlast.
    - intros u post' ->.
      replace (pre ++ v :: u :: post') with ((pre ++ [v]) ++ u :: post')
        in Heq by (rewrite <- app_assoc; reflexivity).
      destruct (Hall _ _ _ Heq) as (Hu & _).
      rewrite Hu, Ho, consumed_app, consumed_cons.
      change (consumed []) with 0. lia.
    - apply Forall_forall. intros u Hin.
      destruct (in_split _ _ Hin) as (p1 & p2 & ->).
      replace (pre ++ v :: p1 ++ u :: p2) with ((pre ++ v :: p1) ++ u :: p2)
        in Heq by (rewrite <- app_assoc; reflexivity).
      destruct (Hall _ _ _ Heq) as (Hu & _).
      rewrite Hu, Ho, consumed_app, consumed_cons.
      rewrite Heq in Hlen.
      apply Forall_app in Hlen. destruct Hlen as [Hlen _].
      apply Forall_app in Hlen. destruct Hlen as [_ Hlen].
      inversion Hlen as [|? ? Hv Hp1]; subst.
      pose proof (consumed_nonneg Hp1). lia. }
  split; [exact Hst|].
  rewrite Hoff. lia.
Qed.
End Walker.

(** ** The frame delay *)


(** The test against 10 is not sensitive to the rounding of the quotient: a
    quotient above 10 is above it by more than 1/6554. *)
Lemma raw_delay_margin (N D : Z) :
  0 <= N -> 0 < D < 65536 ->
  let raw := (inject_Z 1000 * inject_Z N / inject_Z D)%Q in
  (raw <= inject_Z 10)%Q \/ (inject_Z 10 + (1 # 6554) <= raw)%Q.
Proof.
  intros HN HD raw. subst raw.
  destruct D as [|p|p]; try lia.
  unfold Qdiv, Qmult, Qinv, Qle, Qplus, inject_Z. cbn [Qnum Qden].
  rewrite ?Z.mul_1_r, ?Pos.mul_1_l.
  destruct (Z_le_gt_dec (1000 * N) (10 * Z.pos p)) as [Hle|Hgt].
  - left. rewrite ?Pos2Z.inj_mul. lia.
  - right. rewrite ?Pos2Z.inj_mul.
    assert (10 * Z.pos p + 10 <= 1000 * N) by lia.
    nia.
Qed.

(** The delays of section 8 of the specification. *)
Example delay_one_hundredth : (fcTL_delay 1 100 == inject_Z 100)%Q.
Proof. reflexivity. Qed.

Example delay_one_second : (fcTL_delay 100 100 == inject_Z 1000)%Q.
Proof. reflexivity. Qed.

Example delay_zero_denominator : (fcTL_delay 5 0 == inject_Z 50)%Q.
Proof. reflexivity. Qed.

Example delay_zero : (fcTL_delay 0 0 == inject_Z 100)%Q.
Proof. reflexivity. Qed.

(** ** The visitors over a walk *)

Lemma parseChunks_state {S : Type} (bytes : Uint8Array)
    (callback : ParseCallback S) (s : S) :
  walk_state (parseChunks bytes callback s)
  = state_after callback bytes s (walk_visits (parseChunks bytes callback s)).
Proof.
  pose proof (parseChunks_run bytes callback s) as Hrun.
  apply parseChunks_loop_spec in Hrun. destruct Hrun as (_ & Hst & _).
  exact Hst.
Qed.

Lemma state_after_app {S : Type} (bytes : Uint8Array)
    (callback : ParseCallback S) (s : S) (us vs : list visit) :
  state_after callback bytes s (us ++ vs)
  = state_after callback bytes (state_after callback bytes s us) vs.
Proof. unfold state_after. apply fold_left_app. Qed.

Lemma state_after_cons {S : Type} (bytes : Uint8Array)
    (callback : ParseCallback S) (s : S) (v : visit) (vs : list visit) :
  state_after callback bytes s (v :: vs)
  = state_after callback bytes (visitor_step callback bytes s v) vs.
Proof. reflexivity. Qed.

(** The pre-scan sets [isAnimated] exactly when it meets an "acTL" chunk. *)
Lemma prescan_state (bytes : Uint8Array) (vs : list visit) : forall s : bool,
  state_after prescan bytes s vs = s || existsb (hasType "acTL") vs.
Proof.
  induction vs as [|v vs IH]; intros s.
  - unfold state_after; simpl. now rewrite orb_false_r.
  - rewrite state_after_cons, IH. unfold visitor_step, prescan, hasType.
    cbn [existsb].
    destruct (vis_type v =? "acTL")%string; cbn [snd];
      destruct s; reflexivity.
Qed.

Lemma prescan_isAnimated (bytes : Uint8Array) :
  walk_state (parseChunks bytes prescan false)
  = existsb (hasType "acTL") (walk_visits (parseChunks bytes prescan false)).
Proof. rewrite parseChunks_state. apply prescan_state. Qed.

(** Case analysis on the type tag, in the order of the [switch]. *)
Ltac switch_type t :=
  let H := fresh "Htype" in
  destruct (String.eqb_spec t "IHDR") as [H|H];
  [|destruct (String.eqb_spec t "acTL") as [H0|H0];
    [|destruct (String.eqb_spec t "fcTL") as [H1|H1];
      [|destruct (String.eqb_spec t "fdAT") as [H2|H2];
        [|destruct (String.eqb_spec t "IDAT") as [H3|H3];
          [|destruct (String.eqb_spec t "IEND") as [H4|H4]]]]]].

(** ** The promise after the executor *)

Lemma settle_not_pending (p q : promise) :
  p <> Pending -> settle p q = p.
Proof. destruct p; [congruence | reflexivity | reflexivity]. Qed.

Lemma fire_promise (p r : page) (e : event) :
  fire p e = Some r ->
  pg_promise r = pg_promise p
  \/ (pg_promise p = Pending
      /\ (pg_promise r = Rejected ImageCreationError
          \/ exists a, pg_promise r = Fulfilled a)).
Proof.
  unfold fire. destruct e as [f|f];
    destruct (existsb (Nat.eqb f) (pg_images p)); try discriminate;
    intros [= <-]; cbn [pg_promise].
  - destruct (pg_createdImages p + 1 =? frameCount (pg_anim p));
      [|now left].
    destruct (pg_anim p) as [a|]; [|now left].
    destruct (pg_promise p); cbn [settle]; eauto.
  - destruct (pg_promise p); cbn [settle]; eauto.
Qed.

(** A settled promise stays as it is, and no image event rejects with
    the not-animated error. *)
Lemma reachable_not_animated (p q : page) :
  reachable p q ->
  (pg_promise q = Rejected NotAnimated <-> pg_promise p = Rejected NotAnimated).
Proof.
  induction 1 as [|q e r Hreach IH Hfire]; [tauto|].
  destruct (fire_promise _ _ Hfire) as [Heq|(Hpend & [Hr|[a Hr]])].
  - rewrite Heq. exact IH.
  - rewrite Hr. rewrite Hpend in IH. split; [discriminate|].
    intros H. apply IH in H. discriminate.
  - rewrite Hr. rewrite Hpend in IH. split; [discriminate|].
    intros H. apply IH in H. discriminate.
Qed.

Lemma playCount_None (options : ParseOptions) (a : Animation.t) :
  playCount options a = None
  <-> ignoreSingle options = true
      /\ (List.length (Animation.frames a) <= 1)%nat.
Proof.
  unfold playCount.
  destruct (Z.leb_spec (Z.of_nat (List.length (Animation.frames a))) 1);
    destruct (ignoreSingle options); destruct (forceLoop options);
    (split; [intros ? | intros [? ?]]); try congruence;
    try (split; [reflexivity | lia]); try lia.
Qed.

(** C3. The promise is rejected with "Not an animated PNG" exactly when
    [ignoreSingle] is set and either the pre-scan meets no "acTL" chunk or
    the extraction pass ends with at most one frame.  When the pre-scan
    fails, nothing else is done: there is no Animation, no image, and the
    buffer is as it was.  No later event changes whether the promise is
    rejected with this error, so it never is when [ignoreSingle] is off. *)
Theorem not_animated_rejection (buffer : Uint8Array) (options : ParseOptions) :
  let foundAcTL :=
    existsb (hasType "acTL") (walk_visits (parseChunks buffer prescan false)) in
  let frames := Animation.frames (anim (extraction buffer)) in
  let r := parse buffer options in
  (ex_promise r = Rejected NotAnimated
   <-> ignoreSingle options = true
       /\ (foundAcTL = false \/ (List.length frames <= 1)%nat))
  /\ (ignoreSingle options = true /\ foundAcTL = false ->
      r = {| ex_promise := Rejected NotAnimated; ex_bytes := buffer;
             ex_anim := None; ex_urls := [] |})
  /\ (forall p, reachable (page_of r) p ->
        (pg_promise p = Rejected NotAnimated
         <-> ex_promise r = Rejected NotAnimated))
  /\ (ignoreSingle options = false ->
      forall p, reachable (page_of r) p -> pg_promise p <> Rejected NotAnimated).
Proof.
  intros foundAcTL frames r.
  assert (Hmain : ex_promise r = Rejected NotAnimated
                  <-> ignoreSingle options = true
                      /\ (foundAcTL = false \/ (List.length frames <= 1)%nat)).
  { subst r. unfold parse. rewrite prescan_isAnimated. fold foundAcTL.
    destruct foundAcTL; cbn [negb andb].
    - destruct (playCount options (anim (extraction buffer))) as [a|] eqn:Hpc;
        cbn [ex_promise].
      + split.
        * destruct (syn_thrown _); discriminate.
        * intros [Hig [Hf|Hlen]]; [discriminate|].
          assert (Hn : playCount options (anim (extraction buffer)) = None)
            by (apply playCount_None; auto).
          congruence.
      + apply playCount_None in Hpc. tauto.
    - destruct (ignoreSingle options) eqn:Hig; cbn [ex_promise].
      + tauto.
      + destruct (playCount options (anim (extraction buffer))) as [a|] eqn:Hpc;
          cbn [ex_promise].
        * split; [destruct (syn_thrown _); discriminate | intros [? _]; discriminate].
        * apply playCount_None in Hpc. destruct Hpc; congruence. }
  split; [exact Hmain|].
  split.
  { intros [Hig Hf]. subst r. unfold parse. rewrite prescan_isAnimated.
    fold foundAcTL. rewrite Hf, Hig. reflexivity. }
  split.
  { intros p Hp. apply (reachable_not_animated Hp). }
  intros Hig p Hp Hrej.
  apply (reachable_not_animated Hp) in Hrej.
  change (pg_promise (page_of r)) with (ex_promise r) in Hrej.
  apply Hmain in Hrej. destruct Hrej; congruence.
Qed.

(** ** The extraction visitor *)





Lemma frames_so_far_step (bytes : Uint8Array) (st : builder) (v : visit) :
  frames_so_far (visitor_step extract bytes st v)
  = (frames_so_far st
     + (if hasType "fcTL" v then 1
        else if hasType "IDAT" v
             then match frame st with Some _ => 0 | None => 1 end
             else 0))%nat
  /\ (frame (visitor_step extract bytes st v) = None
      <-> frame st = None /\ hasType "fcTL" v = false
          /\ hasType "IDAT" v = false).
Proof.
  unfold visitor_step, extract, hasType, frames_so_far. cbn [snd].
  switch_type (vis_type v); cbn [anim frame].
  all: try (destruct (String.eqb_spec (vis_type v) "fcTL"); [congruence|]).
  all: try (destruct (String.eqb_spec (vis_type v) "IDAT"); [congruence|]).
  all: destruct (frame st);
    cbn [anim frame finalize Animation.withSize Animation.withNumPlays
         Animation.addPlayTime Animation.pushFrame Animation.frames];
    rewrite ?length_app; cbn [List.length];
    (split; [lia | intuition congruence]).
Qed.

Lemma frames_so_far_walk (bytes : Uint8Array) (vs : list visit) :
  forall st : builder,
  frames_so_far (state_after extract bytes st vs)
  = (frames_so_far st + tagCount "fcTL" vs
     + match frame st with
       | Some _ => 0
       | None => if idatBeforeFcTL vs then 1 else 0
       end)%nat.
Proof.
  induction vs as [|v vs IH]; intros st.
  - unfold state_after, tagCount; simpl. destruct (frame st); lia.
  - rewrite state_after_cons, IH.
    destruct (frames_so_far_step bytes st v) as [Hn Hf].
    rewrite Hn. unfold tagCount. cbn [filter idatBeforeFcTL].
    destruct (hasType "fcTL" v) eqn:Hfc.
    + cbn [List.length].
      destruct (frame (visitor_step extract bytes st v)) eqn:Hfr.
      * destruct (frame st); lia.
      * destruct (proj1 Hf eq_refl) as (_ & ? & _). discriminate.
    + destruct (hasType "IDAT" v) eqn:Hid.
      * destruct (frame (visitor_step extract bytes st v)) eqn:Hfr.
        -- destruct (frame st); lia.
        -- destruct (proj1 Hf eq_refl) as (_ & _ & ?). discriminate.
      * destruct (frame st) eqn:Hst.
        -- destruct (frame (visitor_step extract bytes st v)) eqn:Hfr; [lia|].
           destruct (proj1 Hf eq_refl) as (? & _). discriminate.
        -- assert (Hfr : frame (visitor_step extract bytes st v) = None)
             by (apply Hf; auto).
           rewrite Hfr. lia.
Qed.

Lemma extraction_frames_length (bytes : Uint8Array) :
  List.length (Animation.frames (anim (extraction bytes)))
  = frames_so_far (walk_state (parseChunks bytes extract builder_init)).
Proof.
  unfold extraction, frames_so_far. cbn [anim].
  destruct (frame _); cbn [finalize Animation.pushFrame Animation.frames].
  - rewrite length_app. simpl. lia.
  - lia.
Qed.

Lemma idatBeforeFcTL_only_IDAT (vs : list visit) :
  tagCount "fcTL" vs = 0%nat -> (0 < tagCount "IDAT" vs)%nat ->
  idatBeforeFcTL vs = true.
Proof.
  unfold tagCount. induction vs as [|v vs IH]; cbn [filter idatBeforeFcTL].
  - simpl. lia.
  - destruct (hasType "fcTL" v); [simpl; lia|].
    destruct (hasType "IDAT" v); [reflexivity|]. exact IH.
Qed.

Lemma idatBeforeFcTL_some_IDAT (vs : list visit) :
  idatBeforeFcTL vs = true -> (0 < tagCount "IDAT" vs)%nat.
Proof.
  unfold tagCount. induction vs as [|v vs IH]; cbn [filter idatBeforeFcTL].
  - discriminate.
  - destruct (hasType "fcTL" v); [discriminate|].
    destruct (hasType "IDAT" v); [simpl; lia|]. exact IH.
Qed.

Lemma extraction_frame_count (bytes : Uint8Array) :
  List.length (Animation.frames (anim (extraction bytes)))
  = (tagCount "fcTL" (walk_visits (parseChunks bytes extract builder_init))
     + if idatBeforeFcTL (walk_visits (parseChunks bytes extract builder_init))
       then 1 else 0)%nat.
Proof.
  rewrite extraction_frames_length, parseChunks_state, frames_so_far_walk.
  reflexivity.
Qed.

(** ** The play count *)



(** ** The number of frames *)

(** C5, as the code has it.  The extraction pass ends with as many frames
    as it visited "fcTL" chunks, and one more when it visited an "IDAT"
    chunk before the first "fcTL" chunk; so an input with "IDAT" chunks
    and no "fcTL" chunk gives exactly one frame. *)
Theorem frame_count (buffer : Uint8Array) :
  let vs := walk_visits (parseChunks buffer extract builder_init) in
  let n := List.length (Animation.frames (anim (extraction buffer))) in
  n = (tagCount "fcTL" vs + if idatBeforeFcTL vs then 1 else 0)%nat
  /\ (idatBeforeFcTL vs = false -> n = tagCount "fcTL" vs)
  /\ (tagCount "fcTL" vs = 0%nat -> (0 < tagCount "IDAT" vs)%nat -> n = 1%nat).
Proof.
  intros vs n.
  assert (Hn : n = (tagCount "fcTL" vs + if idatBeforeFcTL vs then 1 else 0)%nat)
    by apply extraction_frame_count.
  split; [exact Hn|]. split.
  - intros Hid. rewrite Hn, Hid. lia.
  - intros Hfc Hidat. rewrite Hn, Hfc.
    rewrite (idatBeforeFcTL_only_IDAT vs Hfc Hidat). reflexivity.
Qed.

(** C5 fails on an animation whose default image is not a frame of it: one
    "fcTL" chunk is visited, after the "IDAT" chunk, and there are two
    frames. *)
Lemma frame_count_default_image :
  let vs := walk_visits (parseChunks apng_default_image extract builder_init) in
  let n := List.length (Animation.frames (anim (extraction apng_default_image))) in
  tagCount "fcTL" vs = 1%nat /\ tagCount "IDAT" vs = 1%nat
  /\ n = 2%nat /\ n <> tagCount "fcTL" vs.
Proof. vm_compute. repeat split; discriminate. Qed.

(** ** Lists of bytes *)

Lemma byteLength_app (l1 l2 : Uint8Array) :
  byteLength (l1 ++ l2) = byteLength l1 + byteLength l2.
Proof. unfold byteLength. rewrite length_app. lia. Qed.

Lemma byteLength_nonneg (l : Uint8Array) : 0 <= byteLength l.
Proof. unfold byteLength. lia. Qed.

Lemma slice_app_middle (pre mid post : Uint8Array) (b e : Z) :
  b = byteLength pre -> e = byteLength pre + byteLength mid ->
  slice (pre ++ mid ++ post) b e = mid.
Proof.
  intros -> ->. unfold slice, byteLength.
  rewrite Nat2Z.id.
  replace (Z.to_nat (Z.of_nat (List.length pre) + Z.of_nat (List.length mid)
                     - Z.of_nat (List.length pre)))
    with (List.length mid) by lia.
  rewrite skipn_app, skipn_all, Nat.sub_diag. cbn [skipn app].
  rewrite firstn_app, firstn_all, Nat.sub_diag. cbn [firstn].
  apply app_nil_r.
Qed.

Lemma get_app_middle (pre mid post : Uint8Array) (i : Z) (k : nat) :
  i = byteLength pre + Z.of_nat k -> (k < List.length mid)%nat ->
  get (pre ++ mid ++ post) i = nth_error mid k.
Proof.
  intros -> Hk. unfold get, byteLength.
  destruct (Z.ltb_spec (Z.of_nat (List.length pre) + Z.of_nat k) 0); [lia|].
  replace (Z.to_nat (Z.of_nat (List.length pre) + Z.of_nat k))
    with (List.length pre + k)%nat by lia.
  rewrite nth_error_app2 by lia.
  replace (List.length pre + k - List.length pre)%nat with k by lia.
  apply nth_error_app1. exact Hk.
Qed.

Lemma Uint8Array_set_splice (pre old src post : Uint8Array) (pos : Z) :
  pos = byteLength pre -> List.length old = List.length src ->
  Uint8Array_set (pre ++ old ++ post) src pos = Normal (pre ++ src ++ post).
Proof.
  intros -> Hlen. unfold Uint8Array_set.
  pose proof (byteLength_nonneg pre).
  destruct (Z.ltb_spec (byteLength pre) 0); [lia|].
  rewrite !byteLength_app.
  assert (Hb : byteLength old = byteLength src)
    by (unfold byteLength; congruence).
  pose proof (byteLength_nonneg post).
  destruct (Z.ltb_spec (byteLength pre + (byteLength old + byteLength post))
                       (byteLength pre + byteLength src)); [lia|].
  cbn [orb]. f_equal. unfold overwrite, byteLength. rewrite Nat2Z.id.
  rewrite firstn_app, firstn_all, Nat.sub_diag. cbn [firstn].
  rewrite app_nil_r. f_equal. f_equal.
  rewrite skipn_app.
  replace (List.length pre + List.length src - List.length pre)%nat
    with (List.length old) by lia.
  rewrite (skipn_all2 pre) by lia. cbn [app].
  rewrite skipn_app, skipn_all, Nat.sub_diag. reflexivity.
Qed.

Lemma makeDWordArray_length (x : Z) : List.length (makeDWordArray x) = 4%nat.
Proof. reflexivity. Qed.

Lemma makeStringArray_length (s : string) :
  List.length (makeStringArray s) = String.length s.
Proof.
  unfold makeStringArray, list_byte_of_string. rewrite length_map.
  induction s as [|c s IH]; [reflexivity|]. simpl. now rewrite IH.
Qed.

Lemma byte_to_Z_ToUint8 (x : Z) :
  0 <= x < 256 -> byte_to_Z (ToUint8 x) = x.
Proof.
  intros Hx. unfold byte_to_Z, ToUint8.
  rewrite Z.mod_small by lia.
  destruct (Byte.of_N (Z.to_N x)) as [b|] eqn:Hb.
  - apply Byte.to_of_N in Hb. rewrite Hb. lia.
  - apply Byte.of_N_None_iff in Hb. lia.
Qed.

Lemma land_255 (x : Z) : Z.land x 255 = x mod 256.
Proof. change 255 with (Z.ones 8). rewrite Z.land_ones by lia. reflexivity. Qed.

(** Reading back a 32-bit value written big-endian. *)
Lemma readDWord_makeDWordArray (pre post : Uint8Array) (x off : Z) :
  0 <= x < 2 ^ 32 -> off = byteLength pre ->
  readDWord (pre ++ makeDWordArray x ++ post) off = x.
Proof.
  intros Hx ->. unfold readDWord.
  rewrite (get_app_middle pre (makeDWordArray x) post (k := 0)) by (simpl; lia).
  rewrite (get_app_middle pre (makeDWordArray x) post (k := 1)) by (simpl; lia).
  rewrite (get_app_middle pre (makeDWordArray x) post (k := 2)) by (simpl; lia).
  rewrite (get_app_middle pre (makeDWordArray x) post (k := 3)) by (simpl; lia).
  unfold makeDWordArray. cbn [nth_error ToInt].
  rewrite !land_255, !Z.shiftr_div_pow2, !Z.shiftl_mul_pow2 by lia.
  change (2 ^ 32) with 4294967296 in Hx.
  change (2 ^ 24) with 16777216. change (2 ^ 16) with 65536.
  change (2 ^ 8) with 256.
  rewrite !byte_to_Z_ToUint8 by (apply Z.mod_pos_bound; lia).
  Z.div_mod_to_equations. lia.
Qed.

(** ** The checksum is a 32-bit value *)

Lemma log2_below (a n : Z) : 0 < n -> 0 <= a < 2 ^ n -> Z.log2 a < n.
Proof.
  intros Hn [Ha Hlt]. destruct (Z.eq_dec a 0) as [->|Hnz].
  - simpl. lia.
  - apply Z.log2_lt_pow2; lia.
Qed.

Lemma lxor_range (a b n : Z) :
  0 < n -> 0 <= a < 2 ^ n -> 0 <= b < 2 ^ n -> 0 <= Z.lxor a b < 2 ^ n.
Proof.
  intros Hn Ha Hb.
  assert (Hnn : 0 <= Z.lxor a b) by (apply Z.lxor_nonneg; lia).
  split; [exact Hnn|].
  destruct (Z.eq_dec (Z.lxor a b) 0) as [->|Hnz].
  - apply Z.pow_pos_nonneg; lia.
  - apply Z.log2_lt_pow2; [lia|].
    pose proof (Z.log2_lxor a b (proj1 Ha) (proj1 Hb)).
    pose proof (log2_below Hn Ha). pose proof (log2_below Hn Hb). lia.
Qed.

Lemma shiftr_range (a k n : Z) :
  0 <= k -> 0 <= a < 2 ^ n -> 0 <= Z.shiftr a k < 2 ^ n.
Proof.
  intros Hk [Ha Hlt]. rewrite Z.shiftr_div_pow2 by lia.
  assert (0 < 2 ^ k) by (apply Z.pow_pos_nonneg; lia).
  split; [apply Z.div_pos; lia|].
  apply Z.le_lt_trans with a; [|exact Hlt].
  apply Z.div_le_upper_bound; [lia|]. nia.
Qed.

Lemma crc_shift_range (c : Z) :
  0 <= c < 2 ^ 32 -> 0 <= crc_shift c < 2 ^ 32.
Proof.
  intros Hc. unfold crc_shift.
  assert (H1 : 0 <= 1) by lia.
  pose proof (@shiftr_range c 1 32 H1 Hc).
  destruct (Z.testbit c 0); [|assumption].
  apply lxor_range; [lia | | assumption].
  change (2 ^ 32) with 4294967296. lia.
Qed.

Lemma crc_table_range (i : Z) :
  0 <= i < 2 ^ 32 -> 0 <= crc_table i < 2 ^ 32.
Proof.
  intros Hi. unfold crc_table. do 8 apply crc_shift_range. exact Hi.
Qed.

Lemma crc_update_range (crc : Z) (b : byte) :
  0 <= crc < 2 ^ 32 -> 0 <= crc_update crc b < 2 ^ 32.
Proof.
  intros Hc. unfold crc_update.
  apply lxor_range; [lia | apply shiftr_range; [lia|exact Hc] |].
  apply crc_table_range. rewrite land_255.
  pose proof (Z.mod_pos_bound (Z.lxor crc (byte_to_Z b)) 256 ltac:(lia)).
  change (2 ^ 32) with 4294967296. lia.
Qed.

Lemma crc_bytes_range (l : list byte) : 0 <= crc_bytes l < 2 ^ 32.
Proof.
  unfold crc_bytes.
  assert (H : forall c, 0 <= c < 2 ^ 32 ->
                        0 <= fold_left crc_update l c < 2 ^ 32).
  { induction l as [|b l IH]; intros c Hc; [exact Hc|].
    cbn [fold_left]. apply IH, crc_update_range, Hc. }
  apply lxor_range; [lia | apply H | ];
    change (2 ^ 32) with 4294967296; lia.
Qed.

Lemma crc32_whole (l : Uint8Array) : crc32 l 0 (byteLength l) = crc_bytes l.
Proof.
  unfold crc32. f_equal.
  rewrite <- (app_nil_r l) at 1. change l with ([] ++ l) at 1.
  rewrite <- app_assoc. apply slice_app_middle; reflexivity.
Qed.

(** ** The chunk writer *)

Lemma crc32_tag_payload (dw tag payload post : Uint8Array) :
  List.length dw = 4%nat ->
  crc32 (dw ++ tag ++ payload ++ post) 4 (byteLength tag + byteLength payload)
  = crc_bytes (tag ++ payload).
Proof.
  intros Hdw. unfold crc32. f_equal.
  replace (dw ++ tag ++ payload ++ post) with (dw ++ (tag ++ payload) ++ post)
    by (rewrite <- !app_assoc; reflexivity).
  apply slice_app_middle.
  - unfold byteLength. rewrite Hdw. reflexivity.
  - rewrite byteLength_app. unfold byteLength. rewrite Hdw. lia.
Qed.

(** The chunk writer never throws for a 4-character tag, and writes the
    chunk of the specification. *)
Lemma makeChunkBytes_spec_chunk (type : string) (dataBytes : Uint8Array) :
  String.length type = 4%nat ->
  makeChunkBytes type dataBytes = Normal (spec_chunk type dataBytes).
Proof.
  intros Htype. unfold spec_chunk.
  set (n := List.length dataBytes).
  set (dw := makeDWordArray (byteLength dataBytes)).
  set (tag := makeStringArray type).
  set (crc := crc_bytes (tag ++ dataBytes)).
  assert (Htag : List.length tag = 4%nat)
    by (unfold tag; rewrite makeStringArray_length; exact Htype).
  unfold makeChunkBytes. rewrite Htype. fold dw tag.
  replace (Z.to_nat (Z.of_nat 4 + byteLength dataBytes + 8))
    with (4 + (4 + (n + 4)))%nat by (unfold byteLength, n; lia).
  rewrite !repeat_app.
  pose proof (@Uint8Array_set_splice [] (repeat x00 4) dw
                (repeat x00 4 ++ repeat x00 n ++ repeat x00 4) 0
                eq_refl eq_refl) as Hset.
  cbn [app] in Hset. rewrite Hset. clear Hset.
  cbn [bind].
  rewrite (Uint8Array_set_splice dw (repeat x00 4) tag _ (pos := 4))
    by (reflexivity || (rewrite repeat_length; congruence)).
  cbn [bind].
  replace (dw ++ tag ++ repeat x00 n ++ repeat x00 4)
    with ((dw ++ tag) ++ repeat x00 n ++ repeat x00 4)
    by (rewrite <- app_assoc; reflexivity).
  rewrite (Uint8Array_set_splice (dw ++ tag) (repeat x00 n) dataBytes _
             (pos := 8))
    by (rewrite ?byteLength_app, ?repeat_length; unfold byteLength;
        rewrite ?Htag; reflexivity).
  cbn [bind].
  replace (crc32 ((dw ++ tag) ++ dataBytes ++ repeat x00 4) 4
             (Z.of_nat 4 + byteLength dataBytes)) with crc.
  2:{ rewrite <- app_assoc.
      replace (Z.of_nat 4) with (byteLength tag)
        by (unfold byteLength; rewrite Htag; reflexivity).
      symmetry. apply crc32_tag_payload. reflexivity. }
  replace ((dw ++ tag) ++ dataBytes ++ repeat x00 4)
    with ((dw ++ tag ++ dataBytes) ++ repeat x00 4 ++ [])
    by (rewrite <- !app_assoc, app_nil_r; reflexivity).
  rewrite (Uint8Array_set_splice (dw ++ tag ++ dataBytes) (repeat x00 4)
             (makeDWordArray crc) [])
    by (reflexivity
        || (rewrite !byteLength_app; unfold byteLength; rewrite Htag;
            change (List.length dw) with 4%nat; lia)).
  rewrite app_nil_r, <- !app_assoc. reflexivity.
Qed.

(** C6. A chunk written for a 4-character type tag is the 4-byte
    big-endian payload length, the tag, the payload, and the 4-byte
    big-endian CRC-32 of the tag followed by the payload.  Recomputing the
    checksum over the tag and payload bytes of the emitted chunk gives the
    value stored in its last four bytes. *)
Theorem makeChunkBytes_layout (type : string) (dataBytes : Uint8Array) :
  String.length type = 4%nat ->
  let crc := crc32 (makeStringArray type ++ dataBytes) 0
                   (4 + byteLength dataBytes) in
  exists out : Uint8Array,
    makeChunkBytes type dataBytes = Normal out
    /\ out = makeDWordArray (byteLength dataBytes) ++ makeStringArray type
             ++ dataBytes ++ makeDWordArray crc
    /\ crc32 out 4 (4 + byteLength dataBytes) = crc
    /\ readDWord out (8 + byteLength dataBytes) = crc
    /\ readString out 4 4 = type
    /\ (byteLength dataBytes < 2 ^ 32 -> readDWord out 0 = byteLength dataBytes).
Proof.
  intros Htype crc.
  set (dw := makeDWordArray (byteLength dataBytes)).
  set (tag := makeStringArray type).
  assert (Htag : List.length tag = 4%nat)
    by (unfold tag; rewrite makeStringArray_length; exact Htype).
  assert (Htag' : byteLength tag = 4)
    by (unfold byteLength; rewrite Htag; reflexivity).
  assert (Hcrc : crc = crc_bytes (tag ++ dataBytes)).
  { unfold crc. fold tag.
    replace (4 + byteLength dataBytes) with (byteLength (tag ++ dataBytes))
      by (rewrite byteLength_app; lia).
    apply crc32_whole. }
  exists (dw ++ tag ++ dataBytes ++ makeDWordArray crc).
  split.
  { rewrite (@makeChunkBytes_spec_chunk type dataBytes Htype).
    unfold spec_chunk. fold dw tag. rewrite Hcrc. reflexivity. }
  split; [reflexivity|].
  split.
  { rewrite Hcrc at 2.
    replace (4 + byteLength dataBytes)
      with (byteLength tag + byteLength dataBytes) by lia.
    apply crc32_tag_payload. reflexivity. }
  split.
  { replace (dw ++ tag ++ dataBytes ++ makeDWordArray crc)
      with ((dw ++ tag ++ dataBytes) ++ makeDWordArray crc ++ [])
      by (rewrite <- !app_assoc, app_nil_r; reflexivity).
    apply readDWord_makeDWordArray.
    - rewrite Hcrc. apply crc_bytes_range.
    - rewrite !byteLength_app, Htag'.
      change (byteLength dw) with 4. lia. }
  split.
  { unfold readString, subarray, contents. cbn [v_begin v_end].
    assert (Hlen : byteLength (dw ++ tag ++ dataBytes ++ makeDWordArray crc)
                   = 12 + byteLength dataBytes).
    { rewrite !byteLength_app, Htag'.
      change (byteLength dw) with 4.
      change (byteLength (makeDWordArray crc)) with 4. lia. }
    rewrite Hlen. pose proof (byteLength_nonneg dataBytes).
    unfold clampIndex.
    destruct (Z.ltb_spec 4 0); [lia|].
    destruct (Z.ltb_spec (4 + 4) 0); [lia|].
    rewrite !Z.min_l, Z.max_r by lia.
    rewrite (slice_app_middle dw tag (dataBytes ++ makeDWordArray crc))
      by (rewrite ?Htag'; reflexivity).
    apply string_of_list_byte_of_string. }
  intros Hn.
  change (dw ++ tag ++ dataBytes ++ makeDWordArray crc)
    with ([] ++ dw ++ tag ++ dataBytes ++ makeDWordArray crc).
  apply readDWord_makeDWordArray; [|reflexivity].
  pose proof (byteLength_nonneg dataBytes). lia.
Qed.

(** The "IEND" chunk of a PNG file is the chunk written for no payload. *)
Lemma makeChunkBytes_layout_witness :
  String.length "IEND" = 4%nat
  /\ makeChunkBytes "IEND" [] = Normal chunk_IEND.
Proof.
  split; [reflexivity|].
  destruct (makeChunkBytes_layout "IEND" [] eq_refl) as (out & Hrun & Hout & _).
  rewrite Hrun, Hout. vm_compute. reflexivity.
Defined.

(** ** Writes through a view *)

Lemma overwrite_length (bytes : Uint8Array) (pos : Z) (src : list byte) :
  0 <= pos -> pos + byteLength src <= byteLength bytes ->
  byteLength (overwrite bytes pos src) = byteLength bytes.
Proof.
  unfold overwrite, byteLength. intros Hpos Hfit.
  rewrite !length_app, length_firstn, length_skipn. lia.
Qed.

Lemma overwrite_as_splice (bytes : Uint8Array) (pos : Z) (src : list byte) :
  0 <= pos -> pos + byteLength src <= byteLength bytes ->
  exists pre old post,
    bytes = pre ++ old ++ post /\ byteLength pre = pos
    /\ List.length old = List.length src
    /\ overwrite bytes pos src = pre ++ src ++ post.
Proof.
  unfold byteLength. intros Hpos Hfit.
  exists (firstn (Z.to_nat pos) bytes),
         (firstn (List.length src) (skipn (Z.to_nat pos) bytes)),
         (skipn (Z.to_nat pos + List.length src) bytes).
  repeat split.
  - rewrite <- (firstn_skipn (Z.to_nat pos) bytes) at 1. f_equal.
    rewrite <- (firstn_skipn (List.length src) (skipn (Z.to_nat pos) bytes))
      at 1.
    f_equal. rewrite skipn_skipn. f_equal. lia.
  - rewrite length_firstn. lia.
  - rewrite length_firstn, length_skipn. lia.
Qed.

Lemma slice_app_left (pre rest : Uint8Array) (x y : Z) :
  0 <= x -> y <= byteLength pre ->
  slice (pre ++ rest) x y = slice pre x y.
Proof.
  unfold slice, byteLength. intros Hx Hy.
  destruct (Z.le_gt_cases y x) as [Hle|Hlt].
  - replace (Z.to_nat (y - x)) with 0%nat by lia. reflexivity.
  - rewrite skipn_app.
    replace (Z.to_nat x - List.length pre)%nat with 0%nat by lia.
    cbn [skipn]. rewrite firstn_app, length_skipn.
    replace (Z.to_nat (y - x) - (List.length pre - Z.to_nat x))%nat
      with 0%nat by lia.
    cbn [firstn]. apply app_nil_r.
Qed.

Lemma slice_app_right (pre rest : Uint8Array) (x y : Z) :
  byteLength pre <= x ->
  slice (pre ++ rest) x y = slice rest (x - byteLength pre) (y - byteLength pre).
Proof.
  unfold slice, byteLength. intros Hx.
  rewrite skipn_app, skipn_all2 by lia. cbn [app].
  replace (Z.to_nat x - List.length pre)%nat
    with (Z.to_nat (x - Z.of_nat (List.length pre))) by lia.
  f_equal. lia.
Qed.

(** A write leaves the bytes outside its range as they were. *)
Lemma slice_overwrite_disjoint (bytes : Uint8Array) (pos : Z) (src : list byte)
    (x y : Z) :
  0 <= pos -> pos + byteLength src <= byteLength bytes ->
  0 <= x -> y <= pos \/ pos + byteLength src <= x ->
  slice (overwrite bytes pos src) x y = slice bytes x y.
Proof.
  intros Hpos Hfit Hx Hdisj.
  destruct (overwrite_as_splice bytes src Hpos Hfit)
    as (pre & old & post & Hb & Hpre & Hold & Hov).
  rewrite Hov. rewrite Hb.
  assert (Hlen : byteLength old = byteLength src)
    by (unfold byteLength; congruence).
  pose proof (byteLength_nonneg src).
  destruct Hdisj as [Hy|Hsx].
  - rewrite !slice_app_left by lia. reflexivity.
  - rewrite !(slice_app_right pre) by lia.
    rewrite !slice_app_right by lia. rewrite Hlen. reflexivity.
Qed.

Lemma slice_overwrite_same (bytes : Uint8Array) (pos : Z) (src : list byte) :
  0 <= pos -> pos + byteLength src <= byteLength bytes ->
  slice (overwrite bytes pos src) pos (pos + byteLength src) = src.
Proof.
  intros Hpos Hfit.
  destruct (overwrite_as_splice bytes src Hpos Hfit)
    as (pre & old & post & Hb & Hpre & Hold & Hov).
  rewrite Hov. apply slice_app_middle; lia.
Qed.

Lemma overwrite_twice (bytes : Uint8Array) (pos : Z) (s1 s2 : list byte) :
  0 <= pos -> pos + byteLength s1 <= byteLength bytes ->
  List.length s1 = List.length s2 ->
  overwrite (overwrite bytes pos s1) pos s2 = overwrite bytes pos s2.
Proof.
  intros Hpos Hfit Hlen.
  destruct (overwrite_as_splice bytes s1 Hpos Hfit)
    as (pre & old & post & Hb & Hpre & Hold & Hov).
  rewrite Hov.
  assert (H1 : Uint8Array_set (pre ++ s1 ++ post) s2 pos
               = Normal (pre ++ s2 ++ post))
    by (apply Uint8Array_set_splice; [lia | exact Hlen]).
  assert (H2 : Uint8Array_set (pre ++ old ++ post) s2 pos
               = Normal (pre ++ s2 ++ post))
    by (apply Uint8Array_set_splice; [lia | congruence]).
  rewrite <- Hb in H2. unfold Uint8Array_set in H1, H2.
  destruct ((pos <? 0) || (byteLength (pre ++ s1 ++ post) <? pos + byteLength s2));
    [discriminate|].
  destruct ((pos <? 0) || (byteLength bytes <? pos + byteLength s2));
    [discriminate|].
  congruence.
Qed.

Lemma overwrite_next (bytes : Uint8Array) (pos : Z) (s1 s2 : list byte) :
  0 <= pos -> pos + byteLength s1 + byteLength s2 <= byteLength bytes ->
  overwrite (overwrite bytes pos s1) (pos + byteLength s1) s2
  = overwrite bytes pos (s1 ++ s2).
Proof.
  intros Hpos Hfit.
  pose proof (byteLength_nonneg s1). pose proof (byteLength_nonneg s2).
  assert (Hfit12 : pos + byteLength (s1 ++ s2) <= byteLength bytes)
    by (rewrite byteLength_app; lia).
  destruct (overwrite_as_splice bytes (s1 ++ s2) Hpos Hfit12)
    as (pre & old & post & Hb & Hpre & Hold & Hov).
  rewrite Hov. rewrite length_app in Hold.
  set (o1 := firstn (List.length s1) old).
  set (o2 := skipn (List.length s1) old).
  assert (Ho : old = o1 ++ o2) by (symmetry; apply firstn_skipn).
  assert (Hl1 : List.length o1 = List.length s1)
    by (unfold o1; rewrite length_firstn; lia).
  assert (Hl2 : List.length o2 = List.length s2)
    by (unfold o2; rewrite length_skipn; lia).
  assert (H1 : Uint8Array_set bytes s1 pos = Normal (pre ++ s1 ++ o2 ++ post)).
  { rewrite Hb, Ho, <- app_assoc.
    apply Uint8Array_set_splice; [lia | exact Hl1]. }
  assert (H2 : Uint8Array_set ((pre ++ s1) ++ o2 ++ post) s2
                 (pos + byteLength s1)
               = Normal ((pre ++ s1) ++ s2 ++ post)).
  { apply Uint8Array_set_splice; [rewrite byteLength_app; lia | exact Hl2]. }
  unfold Uint8Array_set in H1, H2.
  destruct ((pos <? 0) || (byteLength bytes <? pos + byteLength s1));
    [discriminate|].
  destruct ((pos + byteLength s1 <? 0)
            || (byteLength ((pre ++ s1) ++ o2 ++ post)
                <? pos + byteLength s1 + byteLength s2)); [discriminate|].
  injection H1 as H1. injection H2 as H2.
  rewrite H1. rewrite <- !app_assoc in *. exact H2.
Qed.

Lemma firstn_add (A : Type) (n k : nat) : forall l : list A,
  firstn (n + k) l = firstn n l ++ firstn k (skipn n l).
Proof.
  induction n as [|n IH]; intros l; [reflexivity|].
  destruct l as [|x l]; cbn [Nat.add firstn skipn app].
  - now rewrite firstn_nil.
  - now rewrite IH.
Qed.

Lemma slice_split (l : Uint8Array) (b m e : Z) :
  0 <= b <= m -> m <= e -> slice l b e = slice l b m ++ slice l m e.
Proof.
  intros Hb He. unfold slice.
  replace (Z.to_nat (e - b)) with (Z.to_nat (m - b) + Z.to_nat (e - m))%nat
    by lia.
  rewrite firstn_add, skipn_skipn. do 3 f_equal. lia.
Qed.

Lemma skipn_slice (l : Uint8Array) (b e : Z) (k : nat) :
  0 <= b -> skipn k (slice l b e) = slice l (b + Z.of_nat k) e.
Proof.
  intros Hb. unfold slice. rewrite skipn_firstn_comm, skipn_skipn.
  f_equal; [lia|]. f_equal. lia.
Qed.

Lemma view_set_overwrite (bytes : Uint8Array) (h : view) (src : list byte)
    (pos : Z) :
  validView (byteLength bytes) h -> 0 <= pos ->
  pos + byteLength src <= viewLength h ->
  view_set bytes h src pos = Normal (overwrite bytes (v_begin h + pos) src).
Proof.
  unfold view_set, Uint8Array_set, validView, viewLength.
  intros (Hb & He) Hpos Hfit.
  destruct (Z.ltb_spec pos 0); [lia|].
  destruct (Z.ltb_spec (v_end h - v_begin h) (pos + byteLength src)); [lia|].
  destruct (Z.ltb_spec (v_begin h + pos) 0); [lia|].
  destruct (Z.ltb_spec (byteLength bytes) (v_begin h + pos + byteLength src));
    [lia|].
  reflexivity.
Qed.

Lemma view_set_too_short (bytes : Uint8Array) (h : view) (src : list byte)
    (pos : Z) :
  viewLength h < pos + byteLength src ->
  view_set bytes h src pos = Throw RangeError.
Proof.
  unfold view_set. intros Hshort.
  destruct (Z.ltb_spec (viewLength h) (pos + byteLength src)); [|lia].
  now rewrite orb_true_r.
Qed.

Lemma subarray_valid (bytes : Uint8Array) (b e : Z) :
  validView (byteLength bytes) (subarray bytes b e).
Proof.
  unfold validView, subarray, clampIndex. cbn [v_begin v_end].
  pose proof (byteLength_nonneg bytes).
  destruct (Z.ltb_spec b 0); destruct (Z.ltb_spec e 0); lia.
Qed.

(** ** Frame synthesis *)

Lemma wrapDataParts_spec (bytes : Uint8Array) (parts : list view) :
  wrapDataParts bytes parts
  = Normal (map (fun p => spec_chunk "IDAT" (contents bytes p)) parts).
Proof.
  induction parts as [|p parts IH]; [reflexivity|].
  cbn [wrapDataParts map].
  rewrite (@makeChunkBytes_spec_chunk "IDAT" (contents bytes p) eq_refl).
  cbn [bind]. rewrite IH. reflexivity.
Qed.

Section Synthesis.
Variable bytes0 : Uint8Array.       (* the input buffer before synthesis *)
Variable h : view.                  (* [headerDataBytes] *)
Variables preBlob postBlob : Uint8Array.
Hypothesis h_valid : validView (byteLength bytes0) h.
Hypothesis h_long : 8 <= viewLength h.

Lemma headerRewritten_length (bytes : Uint8Array) :
  headerRewritten bytes0 h bytes -> byteLength bytes = byteLength bytes0.
Proof.
  destruct h_valid as (Hb & He). unfold viewLength in h_long.
  intros [->|(dims & Hd & ->)]; [reflexivity|].
  apply overwrite_length; unfold byteLength in *; lia.
Qed.

Lemma headerRewritten_overwrite (bytes : Uint8Array) (dims : list byte) :
  headerRewritten bytes0 h bytes -> List.length dims = 8%nat ->
  overwrite bytes (v_begin h) dims = overwrite bytes0 (v_begin h) dims.
Proof.
  destruct h_valid as (Hb & He). unfold viewLength in h_long.
  intros [->|(d & Hd & ->)] Hdims; [reflexivity|].
  apply overwrite_twice; unfold byteLength in *; lia.
Qed.

Lemma headerRewritten_clear (bytes : Uint8Array) (p : view) :
  headerRewritten bytes0 h bytes -> clearOf (v_begin h) p ->
  contents bytes p = contents bytes0 p.
Proof.
  destruct h_valid as (Hb & He). unfold viewLength in h_long.
  intros [->|(d & Hd & ->)] (Hp0 & Hp); [reflexivity|].
  unfold contents. destruct Hp as [Hempty|Hp].
  - unfold slice. replace (Z.to_nat (v_end p - v_begin p)) with 0%nat by lia.
    reflexivity.
  - apply slice_overwrite_disjoint; unfold byteLength in *; lia.
Qed.

Lemma headerRewritten_template (dims : list byte) :
  List.length dims = 8%nat ->
  contents (overwrite bytes0 (v_begin h) dims) h
  = dims ++ skipn 8 (contents bytes0 h).
Proof.
  destruct h_valid as (Hb & He). unfold viewLength in h_long.
  intros Hd. unfold contents.
  rewrite (@slice_split _ (v_begin h) (v_begin h + 8) (v_end h)) by lia.
  f_equal.
  - replace 8 with (byteLength dims) by (unfold byteLength in *; lia).
    apply slice_overwrite_same; unfold byteLength in *; lia.
  - rewrite skipn_slice by lia.
    apply slice_overwrite_disjoint; unfold byteLength in *; lia.
Qed.

(** One pass of the loop body that does not throw. *)
Lemma synthFrame_run (bytes : Uint8Array) (fr : Frame.t) (parts : list view) :
  headerRewritten bytes0 h bytes ->
  Frame.dataParts fr = Some parts ->
  Forall (clearOf (v_begin h)) parts ->
  let dims := makeDWordArray (Frame.width fr)
              ++ makeDWordArray (Frame.height fr) in
  synthFrame (Some h) preBlob postBlob bytes fr
  = (overwrite bytes0 (v_begin h) dims,
     Normal (spec_frameStream (contents bytes0 h) preBlob postBlob
               (Frame.width fr) (Frame.height fr)
               (map (contents bytes0) parts))).
Proof.
  intros Hbytes Hparts Hclear dims.
  pose proof (headerRewritten_length Hbytes) as Hlen.
  destruct h_valid as (Hb & He).
  assert (Hv : validView (byteLength bytes) h)
    by (unfold validView; rewrite Hlen; auto).
  unfold synthFrame.
  rewrite (@view_set_overwrite bytes h (makeDWordArray (Frame.width fr)) 0)
    by (auto; change (byteLength (makeDWordArray (Frame.width fr))) with 4; lia).
  set (bytes1 := overwrite bytes (v_begin h + 0) (makeDWordArray (Frame.width fr))).
  assert (Hlen1 : byteLength bytes1 = byteLength bytes).
  { unfold viewLength in h_long.
    apply overwrite_length;
      change (byteLength (makeDWordArray (Frame.width fr))) with 4; lia. }
  rewrite (@view_set_overwrite bytes1 h (makeDWordArray (Frame.height fr)) 4)
    by (unfold validView; rewrite ?Hlen1, ?Hlen; auto;
        change (byteLength (makeDWordArray (Frame.height fr))) with 4; lia).
  assert (Hbytes2 : overwrite bytes1 (v_begin h + 4)
                      (makeDWordArray (Frame.height fr))
                    = overwrite bytes0 (v_begin h) dims).
  { unfold bytes1. rewrite Z.add_0_r.
    change 4 with (byteLength (makeDWordArray (Frame.width fr))) at 1.
    unfold viewLength in h_long.
    rewrite overwrite_next
      by (change (byteLength (makeDWordArray (Frame.width fr))) with 4;
          change (byteLength (makeDWordArray (Frame.height fr))) with 4; lia).
    apply headerRewritten_overwrite; [exact Hbytes | reflexivity]. }
  rewrite Hbytes2. f_equal.
  rewrite (@makeChunkBytes_spec_chunk "IHDR" _ eq_refl). cbn [bind].
  rewrite Hparts, wrapDataParts_spec. cbn [bind]. f_equal.
  unfold spec_frameStream, Blob.
  rewrite headerRewritten_template by reflexivity.
  rewrite !concat_app. cbn [List.concat].
  rewrite !app_nil_r, <- !app_assoc. fold dims. do 3 f_equal.
  rewrite map_map. f_equal. f_equal.
  apply map_ext_in. intros p Hp. f_equal.
  apply headerRewritten_clear.
  - right. exists dims. split; reflexivity.
  - rewrite Forall_forall in Hclear. apply Hclear, Hp.
Qed.
End Synthesis.

Lemma synthFrames_run (bytes0 : Uint8Array) (h : view)
    (preBlob postBlob : Uint8Array) :
  validView (byteLength bytes0) h -> 8 <= viewLength h ->
  forall (frames : list Frame.t) (bytes : Uint8Array) (f : nat),
  headerRewritten bytes0 h bytes ->
  Forall (fun fr => exists parts, Frame.dataParts fr = Some parts
                      /\ Forall (clearOf (v_begin h)) parts) frames ->
  let r := synthFrames (Some h) preBlob postBlob bytes frames f in
  syn_thrown r = None
  /\ syn_urls r
     = map (fun fr => spec_frameStream (contents bytes0 h) preBlob postBlob
                        (Frame.width fr) (Frame.height fr)
                        (map (contents bytes0) (partsOf fr))) frames
  /\ (frames = [] -> syn_bytes r = bytes)
  /\ (forall fs fl, frames = fs ++ [fl] ->
        syn_bytes r
        = overwrite bytes0 (v_begin h)
            (makeDWordArray (Frame.width fl) ++ makeDWordArray (Frame.height fl))).
Proof.
  intros Hvalid Hlong frames.
  induction frames as [|fr rest IH]; intros bytes f Hbytes Hparts r.
  - subst r. cbn [synthFrames syn_thrown syn_urls syn_bytes map].
    repeat split; try reflexivity.
    intros fs fl Heq. destruct fs; discriminate.
  - inversion Hparts as [|? ? (parts & Hp & Hclear) Hrest]; subst.
    subst r. cbn [synthFrames].
    rewrite (@synthFrame_run bytes0 h preBlob postBlob Hvalid Hlong
               bytes fr parts Hbytes Hp Hclear).
    set (bytes' := overwrite bytes0 (v_begin h)
                     (makeDWordArray (Frame.width fr)
                      ++ makeDWordArray (Frame.height fr))).
    assert (Hbytes' : headerRewritten bytes0 h bytes').
    { right. eexists. split; [|reflexivity]. reflexivity. }
    destruct (IH bytes' (Datatypes.S f) Hbytes' Hrest)
      as (Hthrown & Hurls & Hnil & Hlast).
    cbn [syn_thrown syn_urls syn_bytes map].
    split; [exact Hthrown|].
    assert (Hpo : partsOf fr = parts) by (unfold partsOf; now rewrite Hp).
    split; [rewrite Hurls, Hpo; reflexivity|].
    split; [discriminate|].
    intros fs fl Heq. destruct rest as [|fr2 rest].
    + destruct fs as [|? [|? ?]]; try discriminate.
      injection Heq as <-. rewrite Hnil by reflexivity. reflexivity.
    + destruct fs as [|f0 fs]; [discriminate|].
      injection Heq as <- Heq. apply (Hlast fs fl Heq).
Qed.

(** The loop throws on its first frame unless there is a header view of at
    least eight bytes. *)
Lemma synthFrames_not_thrown (hdr : option view)
    (preBlob postBlob bytes : Uint8Array) (fr : Frame.t)
    (rest : list Frame.t) (f : nat) :
  syn_thrown (synthFrames hdr preBlob postBlob bytes (fr :: rest) f) = None ->
  exists h, hdr = Some h /\ 8 <= viewLength h.
Proof.
  cbn [synthFrames]. unfold synthFrame.
  destruct hdr as [h|]; [|discriminate].
  intros Hthrown. exists h. split; [reflexivity|].
  destruct (Z.lt_ge_cases (viewLength h) 8) as [Hshort|Hlong]; [|exact Hlong].
  exfalso.
  destruct (view_set bytes h (makeDWordArray (Frame.width fr)) 0)
    as [bytes1|e]; [|discriminate].
  rewrite view_set_too_short in Hthrown; [discriminate|].
  change (byteLength (makeDWordArray (Frame.height fr))) with 4. lia.
Qed.

(** ** What the extraction pass collects *)

Lemma partsFrom_incl (bytes : Uint8Array) (vs vs' : list visit) (f : Frame.t) :
  incl vs vs' -> partsFrom bytes vs f -> partsFrom bytes vs' f.
Proof.
  intros Hincl (parts & Hp & Hall). exists parts. split; [exact Hp|].
  eapply Forall_impl; [|exact Hall].
  intros p (v & Hin & Hv). exists v. split; [apply Hincl, Hin | exact Hv].
Qed.

Lemma partsFrom_push (bytes : Uint8Array) (vs : list visit) (f : Frame.t)
    (v : visit) (p : view) :
  partsFrom bytes vs f -> In v vs -> dataPartOf bytes v p ->
  partsFrom bytes vs (Frame.pushDataPart f p).
Proof.
  intros (parts & Hp & Hall) Hin Hv. unfold Frame.pushDataPart. rewrite Hp.
  exists (parts ++ [p]). split; [reflexivity|].
  apply Forall_app. split; [exact Hall|].
  constructor; [|constructor]. exists v. auto.
Qed.

Lemma builtFrom_step (bytes : Uint8Array) (done : list visit) (st : builder)
    (v : visit) :
  builtFrom bytes done st ->
  builtFrom bytes (done ++ [v]) (visitor_step extract bytes st v).
Proof.
  intros (Hframes & Hframe & Hhdr).
  assert (Hincl : incl done (done ++ [v])) by (apply incl_appl, incl_refl).
  assert (Hv : In v (done ++ [v])) by (apply in_or_app; right; left; reflexivity).
  assert (Hframes' : Forall (partsFrom bytes (done ++ [v]))
                       (Animation.frames (anim st))).
  { eapply Forall_impl; [|exact Hframes].
    intros f. apply partsFrom_incl, Hincl. }
  assert (Hframe' : forall f, frame st = Some f ->
                              partsFrom bytes (done ++ [v]) f).
  { intros f Hf. eapply partsFrom_incl; [exact Hincl | apply Hframe, Hf]. }
  assert (Hhdr' : forall h, headerDataBytes st = Some h ->
                    exists u, In u (done ++ [v]) /\ headerOf bytes u h).
  { intros h Hh. destruct (Hhdr h Hh) as (u & Hu & Hof).
    exists u. split; [apply Hincl, Hu | exact Hof]. }
  unfold visitor_step, extract, builtFrom. cbn [snd].
  switch_type (vis_type v); cbn [anim frame headerDataBytes].
  - (* IHDR *)
    split; [exact Hframes'|]. split; [exact Hframe'|].
    intros h [= <-]. exists v. split; [exact Hv|]. split; [exact Htype|reflexivity].
  - (* acTL *)
    auto.
  - (* fcTL *)
    cbn [Animation.addPlayTime Animation.frames].
    split; [|split; [|exact Hhdr']].
    + destruct (frame st) as [f|] eqn:Hf;
        cbn [finalize Animation.pushFrame Animation.frames]; [|exact Hframes'].
      apply Forall_app. split; [exact Hframes'|].
      constructor; [apply Hframe'; reflexivity | constructor].
    + intros f [= <-]. exists []. split; [reflexivity | constructor].
  - (* fdAT *)
    split; [exact Hframes'|]. split; [|exact Hhdr'].
    destruct (frame st) as [f|] eqn:Hf; [|discriminate].
    intros f' [= <-].
    apply partsFrom_push with v; [apply Hframe'; reflexivity | exact Hv |].
    right. split; [exact H2 | reflexivity].
  - (* IDAT *)
    destruct (frame st) as [f|] eqn:Hf; cbn [anim frame headerDataBytes].
    + split; [exact Hframes'|]. split; [|exact Hhdr'].
      intros f' [= <-].
      apply partsFrom_push with v; [apply Hframe'; reflexivity | exact Hv |].
      left. split; [exact H3 | reflexivity].
    + split; [exact Hframes'|]. split; [|exact Hhdr'].
      intros f' [= <-]. eexists. split; [reflexivity|].
      constructor; [|constructor].
      exists v. split; [exact Hv|]. left. split; [exact H3 | reflexivity].
  - (* IEND *)
    auto.
  - (* any other type *)
    auto.
Qed.

Lemma builtFrom_walk (bytes : Uint8Array) (vs : list visit) :
  forall (done : list visit) (st : builder),
  builtFrom bytes done st ->
  builtFrom bytes (done ++ vs) (state_after extract bytes st vs).
Proof.
  induction vs as [|v vs IH]; intros done st Hst.
  - rewrite app_nil_r. exact Hst.
  - rewrite state_after_cons.
    replace (done ++ v :: vs) with ((done ++ [v]) ++ vs)
      by (rewrite <- app_assoc; reflexivity).
    apply IH, builtFrom_step, Hst.
Qed.

Lemma builtFrom_init (bytes : Uint8Array) : builtFrom bytes [] builder_init.
Proof.
  unfold builtFrom, builder_init. cbn.
  split; [constructor|]. split; discriminate.
Qed.

(** The frame in progress always carries its [dataParts] array. *)
Lemma extract_frame_has_dataParts (bytes : Uint8Array) (vs : list visit)
    (f : Frame.t) :
  frame (state_after extract bytes builder_init vs) = Some f ->
  Frame.dataParts f <> None.
Proof.
  intros Hf.
  pose proof (@builtFrom_walk bytes vs [] builder_init (builtFrom_init bytes))
    as (_ & Hframe & _).
  destruct (Hframe f Hf) as (parts & Hp & _). congruence.
Qed.

(** The extraction pass, with its last frame finalized. *)
Lemma extraction_builtFrom (bytes : Uint8Array) :
  let vs := walk_visits (parseChunks bytes extract builder_init) in
  Forall (partsFrom bytes vs) (Animation.frames (anim (extraction bytes)))
  /\ (forall h, headerDataBytes (extraction bytes) = Some h ->
        exists v, In v vs /\ headerOf bytes v h).
Proof.
  intros vs.
  pose proof (@builtFrom_walk bytes vs [] builder_init (builtFrom_init bytes))
    as Hinv.
  cbn [app] in Hinv. unfold vs in Hinv at 2.
  rewrite <- parseChunks_state in Hinv.
  destruct Hinv as (Hframes & Hframe & Hhdr).
  unfold extraction. cbn [anim headerDataBytes]. split; [|exact Hhdr].
  destruct (frame (walk_state (parseChunks bytes extract builder_init)))
    as [f|] eqn:Hf; cbn [finalize Animation.pushFrame Animation.frames].
  - apply Forall_app. split; [exact Hframes|].
    constructor; [apply Hframe; reflexivity | constructor].
  - exact Hframes.
Qed.

Lemma knownType_cases (v : visit) :
  knownType v = false
  <-> vis_type v <> "IHDR"%string /\ vis_type v <> "acTL"%string
      /\ vis_type v <> "fcTL"%string /\ vis_type v <> "fdAT"%string
      /\ vis_type v <> "IDAT"%string /\ vis_type v <> "IEND"%string.
Proof.
  unfold knownType, hasType.
  repeat match goal with
  | |- context [String.eqb ?a ?b] => destruct (String.eqb_spec a b)
  end; cbn [orb]; intuition congruence.
Qed.

(** The prologue holds the chunks of every type the visitor has no case
    for, the epilogue the "IEND" chunks, in the order of the walk. *)
Lemma extract_groups (bytes : Uint8Array) (vs : list visit) :
  forall st : builder,
  preDataParts (state_after extract bytes st vs)
  = preDataParts st
    ++ map (chunkCopy bytes) (filter (fun v => negb (knownType v)) vs)
  /\ postDataParts (state_after extract bytes st vs)
     = postDataParts st ++ map (chunkCopy bytes) (filter (hasType "IEND") vs).
Proof.
  induction vs as [|v vs IH]; intros st.
  - unfold state_after. cbn. now rewrite !app_nil_r.
  - rewrite state_after_cons. destruct (IH (visitor_step extract bytes st v))
      as (Hpre & Hpost).
    rewrite Hpre, Hpost. cbn [filter].
    destruct (knownType v) eqn:Hk.
    + cbn [negb].
      assert (Hstep : preDataParts (visitor_step extract bytes st v)
                      = preDataParts st
                      /\ postDataParts (visitor_step extract bytes st v)
                         = postDataParts st
                            ++ if hasType "IEND" v then [chunkCopy bytes v]
                               else []).
      { unfold visitor_step, extract, hasType. cbn [snd].
        switch_type (vis_type v); cbn [preDataParts postDataParts];
          try (destruct (String.eqb_spec (vis_type v) "IEND");
               [congruence|]);
          try (rewrite app_nil_r; split; reflexivity).
        - destruct (frame st); cbn [preDataParts postDataParts];
            rewrite app_nil_r; split; reflexivity.
        - split; reflexivity.
        - exfalso. apply Bool.not_false_iff_true in Hk. apply Hk.
          apply knownType_cases. auto 10. }
      destruct Hstep as (-> & ->).
      split; [reflexivity|].
      destruct (hasType "IEND" v); cbn [map]; rewrite <- app_assoc; reflexivity.
    + cbn [negb map].
      pose proof (proj1 (knownType_cases v) Hk) as (N1 & N2 & N3 & N4 & N5 & N6).
      assert (Hstep : preDataParts (visitor_step extract bytes st v)
                      = preDataParts st ++ [chunkCopy bytes v]
                      /\ postDataParts (visitor_step extract bytes st v)
                         = postDataParts st).
      { unfold visitor_step, extract. cbn [snd].
        switch_type (vis_type v); try contradiction.
        cbn [preDataParts postDataParts]. split; reflexivity. }
      destruct Hstep as (-> & ->).
      unfold hasType. destruct (String.eqb_spec (vis_type v) "IEND");
        [contradiction|].
      rewrite <- app_assoc. split; reflexivity.
Qed.

(** ** Chunks do not overlap *)

Lemma walk_order {S : Type} (bytes : Uint8Array) (callback : ParseCallback S)
    (s : S) (pre mid post : list visit) (u v : visit) :
  walk_visits (parseChunks bytes callback s) = pre ++ u :: mid ++ v :: post ->
  8 <= vis_off u /\ 0 <= vis_length u
  /\ vis_off u + (12 + vis_length u) <= vis_off v.
Proof.
  intros Heq.
  pose proof (parseChunks_lengths_nonneg bytes callback s) as Hlen.
  pose proof (parseChunks_run bytes callback s) as Hrun.
  apply parseChunks_loop_spec in Hrun. destruct Hrun as (_ & _ & _ & Hall).
  destruct (Hall _ _ _ Heq) as (Hu & _).
  assert (Heq' : walk_visits (parseChunks bytes callback s)
                 = (pre ++ u :: mid) ++ v :: post)
    by (rewrite Heq, <- app_assoc; reflexivity).
  destruct (Hall _ _ _ Heq') as (Hv & _).
  rewrite Heq in Hlen.
  apply Forall_app in Hlen. destruct Hlen as [Hpre Hlen].
  inversion Hlen as [|? ? Hul Hrest]; subst.
  apply Forall_app in Hrest. destruct Hrest as [Hmid _].
  pose proof (consumed_nonneg Hpre). pose proof (consumed_nonneg Hmid).
  rewrite consumed_app, consumed_cons in Hv. lia.
Qed.

Lemma walk_visit_bounds {S : Type} (bytes : Uint8Array)
    (callback : ParseCallback S) (s : S) (v : visit) :
  In v (walk_visits (parseChunks bytes callback s)) ->
  8 <= vis_off v /\ 0 <= vis_length v.
Proof.
  intros Hin.
  pose proof (parseChunks_lengths_nonneg bytes callback s) as Hlen.
  pose proof (parseChunks_run bytes callback s) as Hrun.
  apply parseChunks_loop_spec in Hrun. destruct Hrun as (_ & _ & _ & Hall).
  destruct (in_split _ _ Hin) as (pre & post & Heq).
  destruct (Hall _ _ _ Heq) as (Hv & _).
  rewrite Heq in Hlen.
  apply Forall_app in Hlen. destruct Hlen as [Hpre Hlen].
  inversion Hlen; subst.
  pose proof (consumed_nonneg Hpre). lia.
Qed.

(** Two visited chunks of different types lie apart in the buffer. *)
Lemma walk_apart {S : Type} (bytes : Uint8Array) (callback : ParseCallback S)
    (s : S) (u v : visit) :
  In u (walk_visits (parseChunks bytes callback s)) ->
  In v (walk_visits (parseChunks bytes callback s)) ->
  vis_type u <> vis_type v ->
  vis_off u + (12 + vis_length u) <= vis_off v
  \/ vis_off v + (12 + vis_length v) <= vis_off u.
Proof.
  intros Hu Hv Hdiff.
  destruct (in_split _ _ Hu) as (l1 & l2 & Heq).
  rewrite Heq in Hv. apply in_app_or in Hv.
  destruct Hv as [Hv|[Hv|Hv]].
  - right. destruct (in_split _ _ Hv) as (p1 & p2 & ->).
    rewrite <- app_assoc in Heq. cbn [app] in Heq.
    apply walk_order in Heq. lia.
  - subst v. contradiction.
  - left. destruct (in_split _ _ Hv) as (p1 & p2 & ->).
    apply walk_order in Heq. lia.
Qed.

(** The data parts stay clear of the eight bytes that synthesis rewrites. *)
Lemma dataPart_clearOf (bytes : Uint8Array) (vh vd : visit) (h p : view) :
  headerOf bytes vh h -> dataPartOf bytes vd p ->
  8 <= viewLength h ->
  8 <= vis_off vh -> 0 <= vis_length vh ->
  8 <= vis_off vd -> 0 <= vis_length vd ->
  vis_off vh + (12 + vis_length vh) <= vis_off vd
  \/ vis_off vd + (12 + vis_length vd) <= vis_off vh ->
  clearOf (v_begin h) p /\ v_begin h = vis_off vh + 8.
Proof.
  intros (_ & ->) Hp Hlong Hoh Hlh Hod Hld Hapart.
  pose proof (byteLength_nonneg bytes).
  unfold viewLength, subarray, clampIndex in Hlong.
  cbn [v_begin v_end] in Hlong.
  destruct (Z.ltb_spec (vis_off vh + 8) 0); [lia|].
  destruct (Z.ltb_spec (vis_off vh + 8 + vis_length vh) 0); [lia|].
  unfold clearOf.
  destruct Hp as [(_ & ->)|(_ & ->)];
    unfold subarray, clampIndex; cbn [v_begin v_end];
    repeat match goal with
    | |- context [?a <? 0] => destruct (Z.ltb_spec a 0); [lia|]
    end; lia.
Qed.

(** ** The synthesized streams *)

Lemma playCount_frames (options : ParseOptions) (a a' : Animation.t) :
  playCount options a = Some a' -> Animation.frames a' = Animation.frames a.
Proof.
  unfold playCount.
  destruct (Z.of_nat (List.length (Animation.frames a)) <=? 1);
    destruct (ignoreSingle options); destruct (forceLoop options);
    intros [= <-]; reflexivity.
Qed.

(** A promise left pending means that no pass of the loop threw. *)
Lemma parse_pending (buffer : Uint8Array) (options : ParseOptions) :
  ex_promise (parse buffer options) = Pending ->
  let st := extraction buffer in
  let r := synthFrames (headerDataBytes st) (Blob (preDataParts st))
             (Blob (postDataParts st)) buffer
             (Animation.frames (anim st)) 0 in
  syn_thrown r = None
  /\ ex_urls (parse buffer options) = syn_urls r
  /\ ex_bytes (parse buffer options) = syn_bytes r.
Proof.
  intros Hp st r. unfold parse in *.
  destruct (negb (walk_state (parseChunks buffer prescan false))
            && ignoreSingle options); [discriminate|].
  destruct (playCount options (anim (extraction buffer))) as [a|] eqn:Hpc;
    [|discriminate].
  rewrite (playCount_frames _ _ Hpc) in *.
  cbn [ex_promise ex_urls ex_bytes] in *. fold st in Hp. fold r in Hp.
  destruct (syn_thrown r); [discriminate|]. auto.
Qed.

(** When synthesis has a frame to work on and does not throw, the header
    view holds at least the eight bytes it rewrites, and no data part
    overlaps them. *)
Lemma synthesis_ready (buffer : Uint8Array) (fr : Frame.t)
    (rest : list Frame.t) :
  let st := extraction buffer in
  Animation.frames (anim st) = fr :: rest ->
  syn_thrown (synthFrames (headerDataBytes st) (Blob (preDataParts st))
                (Blob (postDataParts st)) buffer
                (Animation.frames (anim st)) 0) = None ->
  exists h vh,
    headerDataBytes st = Some h
    /\ In vh (walk_visits (parseChunks buffer extract builder_init))
    /\ headerOf buffer vh h
    /\ v_begin h = vis_off vh + 8
    /\ validView (byteLength buffer) h /\ 8 <= viewLength h
    /\ Forall (fun f => exists parts, Frame.dataParts f = Some parts
                          /\ Forall (clearOf (v_begin h)) parts)
              (Animation.frames (anim st)).
Proof.
  intros st Hframes Hthrown. rewrite Hframes in Hthrown.
  apply synthFrames_not_thrown in Hthrown.
  destruct Hthrown as (h & Hh & Hlong).
  destruct (extraction_builtFrom buffer) as (Hparts & Hhdr).
  destruct (Hhdr h Hh) as (vh & Hvh & Hof).
  destruct (walk_visit_bounds _ _ _ _ Hvh) as (Hoh & Hlh).
  assert (Hb : v_begin h = vis_off vh + 8).
  { destruct Hof as (_ & ->). pose proof (byteLength_nonneg buffer).
    unfold viewLength, subarray, clampIndex in *. cbn [v_begin v_end] in *.
    destruct (Z.ltb_spec (vis_off vh + 8) 0); [lia|].
    destruct (Z.ltb_spec (vis_off vh + 8 + vis_length vh) 0); lia. }
  exists h, vh. repeat split; try assumption; try apply Hof.
  - destruct Hof as (_ & ->). apply subarray_valid.
  - destruct Hof as (_ & ->). apply subarray_valid.
  - destruct Hof as (_ & ->). apply subarray_valid.
  - eapply Forall_impl; [|exact Hparts].
    intros f (parts & Hp & Hall). exists parts. split; [exact Hp|].
    eapply Forall_impl; [|exact Hall].
    intros p (vd & Hvd & Hd).
    destruct (walk_visit_bounds _ _ _ _ Hvd) as (Hod & Hld).
    eapply dataPart_clearOf; try eassumption.
    apply (walk_apart _ _ _ _ _ Hvh Hvd).
    destruct Hof as (-> & _). destruct Hd as [(-> & _)|(-> & _)]; discriminate.
Qed.

(** C7. When synthesis runs to its end, the stream of each frame is the
    PNG signature, an "IHDR" chunk whose payload is the header template
    with its first eight bytes replaced by the frame's width and height,
    the prologue, one "IDAT" chunk per data part of the frame, and the
    epilogue; every chunk written has a fresh length and checksum.  The
    template is the payload of a visited "IHDR" chunk; a data part is the
    payload of a visited "IDAT" chunk, or that of a visited "fdAT" chunk
    from its fifth byte on; the prologue is the chunks of other types and
    the epilogue the "IEND" chunks, as they are in the input. *)
Theorem frame_streams (buffer : Uint8Array) (options : ParseOptions) :
  ex_promise (parse buffer options) = Pending ->
  let st := extraction buffer in
  let vs := walk_visits (parseChunks buffer extract builder_init) in
  let template := match headerDataBytes st with
                  | Some h => contents buffer h
                  | None => []
                  end in
  let prologue :=
    Blob (map (chunkCopy buffer) (filter (fun v => negb (knownType v)) vs)) in
  let epilogue :=
    Blob (map (chunkCopy buffer) (filter (hasType "IEND") vs)) in
  ex_urls (parse buffer options)
  = map (fun f => spec_frameStream template prologue epilogue
                    (Frame.width f) (Frame.height f)
                    (map (contents buffer) (partsOf f)))
        (Animation.frames (anim st))
  /\ Forall (partsFrom buffer vs) (Animation.frames (anim st))
  /\ (forall h, headerDataBytes st = Some h ->
        exists v, In v vs /\ headerOf buffer v h).
Proof.
  intros Hpending st vs template prologue epilogue.
  destruct (parse_pending _ _ Hpending) as (Hthrown & Hurls & _).
  fold st in Hthrown, Hurls.
  destruct (extraction_builtFrom buffer) as (Hparts & Hhdr).
  fold vs st in Hparts, Hhdr.
  split; [|split; assumption].
  assert (Hpre : Blob (preDataParts st) = prologue).
  { unfold st, extraction. cbn [preDataParts]. rewrite parseChunks_state.
    rewrite (proj1 (extract_groups buffer _ builder_init)). reflexivity. }
  assert (Hpost : Blob (postDataParts st) = epilogue).
  { unfold st, extraction. cbn [postDataParts]. rewrite parseChunks_state.
    rewrite (proj2 (extract_groups buffer _ builder_init)). reflexivity. }
  rewrite Hurls.
  destruct (Animation.frames (anim st)) as [|fr rest] eqn:Hframes.
  - reflexivity.
  - rewrite <- Hframes in Hthrown.
    destruct (synthesis_ready buffer Hframes Hthrown)
      as (h & vh & Hh & _ & _ & _ & Hvalid & Hlong & Hclear).
    fold st in Hh, Hclear. rewrite Hframes in Hclear.
    destruct (@synthFrames_run buffer h (Blob (preDataParts st))
                (Blob (postDataParts st)) Hvalid Hlong (fr :: rest) buffer 0%nat
                (or_introl eq_refl) Hclear) as (_ & Hrun & _).
    rewrite Hh, Hrun. unfold template. rewrite Hh, Hpre, Hpost. reflexivity.
Qed.

(** The two streams of the sample animation. *)
Lemma frame_streams_witness :
  ex_promise (parse apng_two_frames defaultOptions) = Pending
  /\ ex_urls (parse apng_two_frames defaultOptions)
     = [ PNG_SIGNATURE_BYTES
         ++ spec_chunk "IHDR" [x00; x00; x00; x04; x00; x00; x00; x03;
                               x08; x06; x00; x00; x00]
         ++ chunk_gAMA ++ spec_chunk "IDAT" [x01; x02] ++ chunk_IEND;
         PNG_SIGNATURE_BYTES
         ++ spec_chunk "IHDR" [x00; x00; x00; x02; x00; x00; x00; x01;
                               x08; x06; x00; x00; x00]
         ++ chunk_gAMA ++ spec_chunk "IDAT" [x03; x04; x05] ++ chunk_IEND ].
Proof.
  assert (Hp : ex_promise (parse apng_two_frames defaultOptions) = Pending)
    by (vm_compute; reflexivity).
  split; [exact Hp|].
  destruct (frame_streams apng_two_frames defaultOptions Hp) as (Hurls & _).
  rewrite Hurls. vm_compute. reflexivity.
Defined.

(** ** The header template is the caller's buffer *)

(** C9. The header template is a view of the input buffer, so synthesis
    writes into that buffer: after the pass of the loop for a frame, the
    eight bytes at the start of the "IHDR" payload hold that frame's width
    and height, big-endian, and the rest of the buffer is as it was; when
    the promise is left pending after at least one frame, the buffer holds
    the dimensions of the last frame.  When the only "IHDR" chunk visited
    is the first chunk, these are the bytes at offsets 16 to 23. *)
Theorem header_rewritten_in_place (buffer : Uint8Array)
    (options : ParseOptions) (fs : list Frame.t) (fl : Frame.t) :
  ex_promise (parse buffer options) = Pending ->
  Animation.frames (anim (extraction buffer)) = fs ++ [fl] ->
  let st := extraction buffer in
  let vs := walk_visits (parseChunks buffer extract builder_init) in
  let dims (f : Frame.t) :=
    makeDWordArray (Frame.width f) ++ makeDWordArray (Frame.height f) in
  exists h vh,
    headerDataBytes st = Some h
    /\ In vh vs /\ headerOf buffer vh h /\ v_begin h = vis_off vh + 8
    /\ (forall fs1 f fs2, fs ++ [fl] = fs1 ++ f :: fs2 ->
          syn_bytes (synthFrames (Some h) (Blob (preDataParts st))
                       (Blob (postDataParts st)) buffer (fs1 ++ [f]) 0)
          = overwrite buffer (v_begin h) (dims f))
    /\ ex_bytes (parse buffer options) = overwrite buffer (v_begin h) (dims fl)
    /\ slice (ex_bytes (parse buffer options)) (v_begin h) (v_begin h + 8)
       = dims fl
    /\ ((forall v, In v vs -> vis_type v = "IHDR"%string -> vis_off v = 8) ->
        slice (ex_bytes (parse buffer options)) 16 24 = dims fl).
Proof.
  intros Hpending Hframes st vs dims.
  destruct (parse_pending _ _ Hpending) as (Hthrown & _ & Hbytes).
  fold st in Hthrown, Hbytes.
  assert (Hcons : exists fr rest, Animation.frames (anim st) = fr :: rest).
  { fold st in Hframes. rewrite Hframes.
    destruct fs as [|f0 fs']; cbn [app]; eauto. }
  destruct Hcons as (fr & rest & Hcons).
  destruct (synthesis_ready buffer Hcons Hthrown)
    as (h & vh & Hh & Hvh & Hof & Hb & Hvalid & Hlong & Hclear).
  fold st in Hh, Hclear.
  assert (Hfinal : ex_bytes (parse buffer options)
                   = overwrite buffer (v_begin h) (dims fl)).
  { rewrite Hbytes, Hh.
    destruct (@synthFrames_run buffer h (Blob (preDataParts st))
                (Blob (postDataParts st)) Hvalid Hlong
                (Animation.frames (anim st)) buffer 0%nat
                (or_introl eq_refl) Hclear) as (_ & _ & _ & Hlast).
    apply (Hlast fs fl). exact Hframes. }
  assert (Hslice : slice (ex_bytes (parse buffer options))
                     (v_begin h) (v_begin h + 8) = dims fl).
  { rewrite Hfinal.
    destruct Hvalid as (Hv1 & Hv2). unfold viewLength in Hlong.
    change 8 with (byteLength (dims fl)).
    apply slice_overwrite_same; [lia|].
    change (byteLength (dims fl)) with 8. lia. }
  exists h, vh. repeat split; try assumption; try apply Hof.
  - intros fs1 f fs2 Hsplit.
    fold st in Hframes. rewrite Hframes, Hsplit in Hclear.
    replace (fs1 ++ f :: fs2) with ((fs1 ++ [f]) ++ fs2) in Hclear
      by (rewrite <- app_assoc; reflexivity).
    apply Forall_app in Hclear. destruct Hclear as [Hclear _].
    destruct (@synthFrames_run buffer h (Blob (preDataParts st))
                (Blob (postDataParts st)) Hvalid Hlong
                (fs1 ++ [f]) buffer 0%nat
                (or_introl eq_refl) Hclear) as (_ & _ & _ & Hlast).
    apply (Hlast fs1 f eq_refl).
  - intros Honly.
    assert (H16 : v_begin h = 16)
      by (rewrite Hb, (Honly vh Hvh (proj1 Hof)); reflexivity).
    rewrite H16 in Hslice. exact Hslice.
Qed.

(** On the sample animation, whose canvas is 4 by 3, the buffer holds the
    2 by 1 of the last frame afterwards. *)
Lemma header_rewritten_in_place_witness :
  ex_promise (parse apng_two_frames defaultOptions) = Pending
  /\ slice apng_two_frames 16 24
     = [x00; x00; x00; x04; x00; x00; x00; x03]
  /\ slice (ex_bytes (parse apng_two_frames defaultOptions)) 16 24
     = [x00; x00; x00; x02; x00; x00; x00; x01].
Proof.
  assert (Hp : ex_promise (parse apng_two_frames defaultOptions) = Pending)
    by (vm_compute; reflexivity).
  split; [exact Hp|]. split; [vm_compute; reflexivity|].
  destruct (@header_rewritten_in_place apng_two_frames defaultOptions
              [sample_frame_0] sample_frame_1
              Hp ltac:(vm_compute; reflexivity))
    as (h & vh & _ & _ & _ & _ & _ & _ & _ & H16).
  rewrite H16.
  - vm_compute. reflexivity.
  - assert (Honly : forallb (fun v => negb (hasType "IHDR" v)
                                     || (vis_off v =? 8))
                      (walk_visits (parseChunks apng_two_frames extract
                                      builder_init)) = true)
      by (vm_compute; reflexivity).
    intros v Hv Htype.
    rewrite forallb_forall in Honly. specialize (Honly v Hv).
    unfold hasType in Honly. rewrite Htype in Honly.
    cbn [String.eqb Ascii.eqb Bool.eqb negb orb] in Honly.
    apply Z.eqb_eq. exact Honly.
Defined.

(** ** No bounds are checked *)





(** A buffer of three bytes: the visitor is still called once, for the
    empty tag and the length 0 that the missing bytes read as. *)
Example short_buffer_is_walked :
  walk_visits (parseChunks png_short prescan false)
  = [ {| vis_type := ""; vis_off := 8; vis_length := 0; vis_res := true |} ].
Proof. vm_compute. reflexivity. Qed.

(** ** No frame, no settlement *)

Lemma no_data_no_frames (buffer : Uint8Array) :
  let vs := walk_visits (parseChunks buffer extract builder_init) in
  Animation.frames (anim (extraction buffer)) = []
  <-> tagCount "fcTL" vs = 0%nat /\ tagCount "IDAT" vs = 0%nat.
Proof.
  intros vs.
  pose proof (extraction_frame_count buffer) as Hn. fold vs in Hn.
  split.
  - intros Hnil. rewrite Hnil in Hn. cbn [List.length] in Hn.
    destruct (idatBeforeFcTL vs) eqn:Hid; [lia|].
    split; [lia|].
    destruct (tagCount "IDAT" vs) as [|k] eqn:Hk; [reflexivity|].
    assert (Hfc : tagCount "fcTL" vs = 0%nat) by lia.
    rewrite (idatBeforeFcTL_only_IDAT vs Hfc) in Hid by lia. discriminate.
  - intros (Hfc & Hidat).
    destruct (idatBeforeFcTL vs) eqn:Hid.
    + apply idatBeforeFcTL_some_IDAT in Hid. lia.
    + rewrite Hfc in Hn.
      destruct (Animation.frames (anim (extraction buffer)));
        [reflexivity | discriminate].
Qed.

(** C10. With [ignoreSingle] off and an input in which the extraction pass
    meets no "fcTL" and no "IDAT" chunk, there is no frame: the executor
    returns with the promise pending and no image element created, so no
    load or error handler exists to run, and the promise stays pending
    whatever happens afterwards. *)
Theorem no_frames_never_settles (buffer : Uint8Array)
    (options : ParseOptions) :
  ignoreSingle options = false ->
  let vs := walk_visits (parseChunks buffer extract builder_init) in
  tagCount "fcTL" vs = 0%nat -> tagCount "IDAT" vs = 0%nat ->
  let r := parse buffer options in
  Animation.frames (anim (extraction buffer)) = []
  /\ ex_promise r = Pending
  /\ ex_urls r = []
  /\ (forall e, fire (page_of r) e = None)
  /\ (forall p, reachable (page_of r) p -> pg_promise p = Pending).
Proof.
  intros Hig vs Hfc Hidat r.
  assert (Hnil : Animation.frames (anim (extraction buffer)) = [])
    by (apply no_data_no_frames; auto).
  assert (Hr : ex_promise r = Pending /\ ex_urls r = []).
  { subst r. unfold parse. rewrite Hig, andb_false_r.
    unfold playCount. rewrite Hnil, Hig.
    change (Z.of_nat (List.length (@nil Frame.t)) <=? 1) with true.
    cbn [Animation.withNumPlays Animation.frames]. rewrite Hnil.
    cbn [synthFrames syn_thrown syn_urls ex_promise ex_urls]. auto. }
  destruct Hr as (Hp & Hu).
  assert (Hfire : forall e, fire (page_of r) e = None).
  { intros e. unfold fire, page_of. cbn [pg_images]. rewrite Hu.
    destruct e; reflexivity. }
  repeat split; try assumption.
  intros p Hreach.
  assert (Heq : p = page_of r).
  { induction Hreach as [|q e p' _ IH Hstep]; [reflexivity|].
    subst q. rewrite Hfire in Hstep. discriminate. }
  subst p. exact Hp.
Qed.

(** A PNG of a header and an end chunk only. *)
Lemma no_frames_never_settles_witness :
  ignoreSingle defaultOptions = false
  /\ ex_promise (parse png_no_data defaultOptions) = Pending
  /\ forall p, reachable (page_of (parse png_no_data defaultOptions)) p ->
               pg_promise p = Pending.
Proof.
  split; [reflexivity|].
  destruct (@no_frames_never_settles png_no_data defaultOptions eq_refl
              ltac:(vm_compute; reflexivity) ltac:(vm_compute; reflexivity))
    as (_ & Hp & _ & _ & Hreach).
  split; [exact Hp | exact Hreach].
Defined.

(** * Further properties of the parser *)

(** ** The play time *)





(** ** The delays *)

Lemma fcTL_delay_above_10 (delayN delayD : Z) :
  (inject_Z 10 < fcTL_delay delayN delayD)%Q.
Proof.
  unfold fcTL_delay.
  set (raw := (inject_Z 1000 * inject_Z delayN
               / inject_Z (if delayD =? 0 then 100 else delayD))%Q).
  destruct (Qle_bool raw (inject_Z 10)) eqn:Hle.
  - reflexivity.
  - apply Qnot_le_lt. intros Hneg. apply Qle_bool_iff in Hneg. congruence.
Qed.

Lemma delays_step (bytes : Uint8Array) (st : builder) (v : visit) :
  let slow (f : Frame.t) := (inject_Z 10 < Frame.delay f)%Q in
  Forall slow (Animation.frames (anim st)) ->
  (forall f, frame st = Some f -> slow f) ->
  Forall slow (Animation.frames (anim (visitor_step extract bytes st v)))
  /\ (forall f, frame (visitor_step extract bytes st v) = Some f -> slow f).
Proof.
  intros slow Hframes Hframe.
  unfold visitor_step, extract. cbn [snd].
  switch_type (vis_type v); cbn [anim frame]; auto.
  - (* fcTL *)
    cbn [Animation.addPlayTime Animation.frames]. split.
    + destruct (frame st) as [f|];
        cbn [finalize Animation.pushFrame Animation.frames]; [|exact Hframes].
      apply Forall_app. split; [exact Hframes|].
      constructor; [apply Hframe; reflexivity | constructor].
    + intros f [= <-]. unfold slow. cbn [Frame.delay].
      apply fcTL_delay_above_10.
  - (* fdAT *)
    split; [exact Hframes|].
    destruct (frame st) as [f|]; [|discriminate].
    intros f' [= <-]. unfold slow, Frame.pushDataPart.
    destruct (Frame.dataParts f); exact (Hframe f eq_refl).
  - (* IDAT *)
    destruct (frame st) as [f|]; cbn [anim frame].
    + split; [exact Hframes|].
      intros f' [= <-]. unfold slow, Frame.pushDataPart.
      destruct (Frame.dataParts f); exact (Hframe f eq_refl).
    + split; [exact Hframes|].
      intros f' [= <-]. reflexivity.
Qed.

Lemma delays_walk (bytes : Uint8Array) (vs : list visit) :
  forall st : builder,
  Forall (fun f => (inject_Z 10 < Frame.delay f)%Q) (Animation.frames (anim st)) ->
  (forall f, frame st = Some f -> (inject_Z 10 < Frame.delay f)%Q) ->
  Forall (fun f => (inject_Z 10 < Frame.delay f)%Q)
         (Animation.frames (anim (state_after extract bytes st vs)))
  /\ (forall f, frame (state_after extract bytes st vs) = Some f ->
                (inject_Z 10 < Frame.delay f)%Q).
Proof.
  induction vs as [|v vs IH]; intros st Hframes Hframe; [auto|].
  rewrite state_after_cons.
  destruct (delays_step bytes st v Hframes Hframe) as (H1 & H2).
  apply IH; assumption.
Qed.

(** X2. Every frame the extraction pass makes, the default frame included,
    has a delay of more than 10 milliseconds. *)
Theorem frame_delays_above_10 (buffer : Uint8Array) :
  Forall (fun f => (inject_Z 10 < Frame.delay f)%Q)
         (Animation.frames (anim (extraction buffer))).
Proof.
  destruct (@delays_walk buffer
              (walk_visits (parseChunks buffer extract builder_init))
              builder_init (Forall_nil _))
    as (Hframes & Hframe); [discriminate|].
  rewrite <- parseChunks_state in Hframes, Hframe.
  unfold extraction. cbn [anim].
  destruct (frame (walk_state (parseChunks buffer extract builder_init)))
    as [f|]; cbn [finalize Animation.pushFrame Animation.frames].
  - apply Forall_app. split; [exact Hframes|].
    constructor; [apply Hframe; reflexivity | constructor].
  - exact Hframes.
Qed.

(** ** The header chunk *)

Lemma header_step (bytes : Uint8Array) (st : builder) (v : visit) :
  let st' := visitor_step extract bytes st v in
  if hasType "IHDR" v then
    headerDataBytes st'
    = Some (subarray bytes (vis_off v + 8) (vis_off v + 8 + vis_length v))
    /\ Animation.width (anim st') = readDWord bytes (vis_off v + 8)
    /\ Animation.height (anim st') = readDWord bytes (vis_off v + 12)
  else
    headerDataBytes st' = headerDataBytes st
    /\ Animation.width (anim st') = Animation.width (anim st)
    /\ Animation.height (anim st') = Animation.height (anim st).
Proof.
  unfold visitor_step, extract, hasType. cbn [snd].
  switch_type (vis_type v); cbn [anim headerDataBytes];
    try (repeat split; reflexivity).
  - cbn [Animation.addPlayTime Animation.width Animation.height].
    destruct (frame st); repeat split; reflexivity.
  - destruct (frame st); repeat split; reflexivity.
Qed.

Lemma header_kept (bytes : Uint8Array) (vs : list visit) :
  forall st : builder,
  Forall (fun u => vis_type u <> "IHDR"%string) vs ->
  headerDataBytes (state_after extract bytes st vs) = headerDataBytes st
  /\ Animation.width (anim (state_after extract bytes st vs))
     = Animation.width (anim st)
  /\ Animation.height (anim (state_after extract bytes st vs))
     = Animation.height (anim st).
Proof.
  induction vs as [|v vs IH]; intros st Hvs; [repeat split|].
  inversion Hvs as [|? ? Hv Hrest]; subst.
  rewrite state_after_cons.
  destruct (IH (visitor_step extract bytes st v) Hrest) as (-> & -> & ->).
  pose proof (header_step bytes st v) as Hstep. cbv zeta in Hstep.
  unfold hasType in Hstep.
  destruct (String.eqb_spec (vis_type v) "IHDR"); [contradiction|].
  exact Hstep.
Qed.

Lemma finalize_size (a : Animation.t) (fr : option Frame.t) :
  Animation.width (finalize a fr) = Animation.width a
  /\ Animation.height (finalize a fr) = Animation.height a.
Proof. destruct fr; split; reflexivity. Qed.

(** X3. The canvas size and the header template are those of the "IHDR"
    chunk that was visited last: the width and height are the big-endian
    fields at payload offsets 0 and 4, the template is the view of its
    payload. *)
Theorem canvas_of_last_IHDR (buffer : Uint8Array) (pre post : list visit)
    (v : visit) :
  walk_visits (parseChunks buffer extract builder_init) = pre ++ v :: post ->
  vis_type v = "IHDR"%string ->
  Forall (fun u => vis_type u <> "IHDR"%string) post ->
  headerDataBytes (extraction buffer)
  = Some (subarray buffer (vis_off v + 8) (vis_off v + 8 + vis_length v))
  /\ Animation.width (anim (extraction buffer)) = readDWord buffer (vis_off v + 8)
  /\ Animation.height (anim (extraction buffer))
     = readDWord buffer (vis_off v + 12).
Proof.
  intros Hvs Hv Hpost.
  unfold extraction. cbn [anim headerDataBytes].
  destruct (finalize_size
              (anim (walk_state (parseChunks buffer extract builder_init)))
              (frame (walk_state (parseChunks buffer extract builder_init))))
    as (-> & ->).
  rewrite parseChunks_state, Hvs, state_after_app, state_after_cons.
  destruct (@header_kept buffer post
              (visitor_step extract buffer
                 (state_after extract buffer builder_init pre) v) Hpost)
    as (-> & -> & ->).
  pose proof (header_step buffer (state_after extract buffer builder_init pre) v)
    as Hstep.
  cbv zeta in Hstep. unfold hasType in Hstep. rewrite Hv in Hstep.
  exact Hstep.
Qed.

(** The canvas of the sample animation is 4 by 3. *)
Lemma canvas_of_last_IHDR_witness :
  Animation.width (anim (extraction apng_two_frames)) = 4
  /\ Animation.height (anim (extraction apng_two_frames)) = 3.
Proof.
  destruct (@canvas_of_last_IHDR apng_two_frames []
              (tl (walk_visits (parseChunks apng_two_frames extract
                                  builder_init)))
              {| vis_type := "IHDR"; vis_off := 8; vis_length := 13;
                 vis_res := true |})
    as (_ & Hw & Hh).
  - vm_compute. reflexivity.
  - reflexivity.
  - assert (Hb : forallb (fun u => negb (hasType "IHDR" u))
                   (tl (walk_visits (parseChunks apng_two_frames extract
                                       builder_init))) = true)
      by (vm_compute; reflexivity).
    apply Forall_forall. intros u Hu Htype.
    rewrite forallb_forall in Hb. specialize (Hb u Hu).
    unfold hasType in Hb. rewrite Htype in Hb. clear - Hb.
    simpl in Hb. discriminate Hb.
  - rewrite Hw, Hh. split; vm_compute; reflexivity.
Defined.

(** ** What the executor does when the policy lets the input pass *)

Lemma tagCount_zero (tag : string) (vs : list visit) :
  tagCount tag vs = 0%nat -> Forall (fun u => vis_type u <> tag) vs.
Proof.
  unfold tagCount, hasType. induction vs as [|v vs IH]; cbn [filter].
  - constructor.
  - destruct (String.eqb_spec (vis_type v) tag); cbn [List.length].
    + discriminate.
    + intros Hz. constructor; auto.
Qed.

Lemma parse_passed (buffer : Uint8Array) (options : ParseOptions) :
  ex_promise (parse buffer options) <> Rejected NotAnimated ->
  let st := extraction buffer in
  let r := synthFrames (headerDataBytes st) (Blob (preDataParts st))
             (Blob (postDataParts st)) buffer
             (Animation.frames (anim st)) 0 in
  exists a,
    playCount options (anim st) = Some a
    /\ parse buffer options
       = {| ex_promise := match syn_thrown r with
                          | Some e => Rejected (Exception e)
                          | None => Pending
                          end;
            ex_bytes := syn_bytes r;
            ex_anim := Some (Animation.withFrames a (syn_frames r));
            ex_urls := syn_urls r |}.
Proof.
  intros Hp st r. unfold parse in *.
  destruct (negb (walk_state (parseChunks buffer prescan false))
            && ignoreSingle options); [cbn in Hp; congruence|].
  destruct (playCount options (anim (extraction buffer))) as [a|] eqn:Hpc;
    [|cbn in Hp; congruence].
  exists a. split; [exact Hpc|].
  subst r st. rewrite (playCount_frames _ _ Hpc). reflexivity.
Qed.

(** X4. Frames but no "IHDR" chunk: the first pass of the synthesis loop
    throws a [TypeError] on the undefined header template, which rejects
    the promise; no image is created and the buffer is not written. *)
Theorem missing_header_throws (buffer : Uint8Array) (options : ParseOptions) :
  ex_promise (parse buffer options) <> Rejected NotAnimated ->
  Animation.frames (anim (extraction buffer)) <> [] ->
  tagCount "IHDR" (walk_visits (parseChunks buffer extract builder_init))
  = 0%nat ->
  ex_promise (parse buffer options) = Rejected (Exception TypeError)
  /\ ex_urls (parse buffer options) = []
  /\ ex_bytes (parse buffer options) = buffer.
Proof.
  intros Hp Hframes Hno.
  destruct (parse_passed _ _ Hp) as (a & _ & ->).
  assert (Hhdr : headerDataBytes (extraction buffer) = None).
  { unfold extraction. cbn [headerDataBytes]. rewrite parseChunks_state.
    apply tagCount_zero in Hno.
    destruct (@header_kept buffer _ builder_init Hno) as (-> & _).
    reflexivity. }
  rewrite Hhdr.
  destruct (Animation.frames (anim (extraction buffer))) as [|fr rest];
    [contradiction|].
  cbn [synthFrames synthFrame syn_thrown syn_urls syn_bytes
       ex_promise ex_urls ex_bytes].
  auto.
Qed.

Lemma missing_header_throws_witness :
  ex_promise (parse png_no_header defaultOptions)
  = Rejected (Exception TypeError)
  /\ ex_bytes (parse png_no_header defaultOptions) = png_no_header.
Proof.
  destruct (@missing_header_throws png_no_header defaultOptions)
    as (Hp & _ & Hb).
  - vm_compute. discriminate.
  - assert (Hn : List.length (Animation.frames
                                (anim (extraction png_no_header))) = 1%nat)
      by (vm_compute; reflexivity).
    intros Hnil. rewrite Hnil in Hn. discriminate Hn.
  - vm_compute. reflexivity.
  - split; assumption.
Defined.

(** X5. A header template shorter than eight bytes: the pass for the first
    frame throws a [RangeError], which rejects the promise with no image
    created.  With fewer than four bytes nothing is written; with four to
    seven the width of the first frame has been written before the
    exception. *)
Theorem short_header_throws (buffer : Uint8Array) (options : ParseOptions)
    (h : view) (fr : Frame.t) (rest : list Frame.t) :
  ex_promise (parse buffer options) <> Rejected NotAnimated ->
  Animation.frames (anim (extraction buffer)) = fr :: rest ->
  headerDataBytes (extraction buffer) = Some h ->
  viewLength h < 8 ->
  ex_promise (parse buffer options) = Rejected (Exception RangeError)
  /\ ex_urls (parse buffer options) = []
  /\ (viewLength h < 4 -> ex_bytes (parse buffer options) = buffer)
  /\ (4 <= viewLength h ->
      ex_bytes (parse buffer options)
      = overwrite buffer (v_begin h) (makeDWordArray (Frame.width fr))).
Proof.
  intros Hp Hframes Hhdr Hshort.
  destruct (parse_passed _ _ Hp) as (a & _ & ->).
  rewrite Hhdr, Hframes. cbn [synthFrames]. unfold synthFrame.
  assert (Hsecond : forall bytes1,
             view_set bytes1 h (makeDWordArray (Frame.height fr)) 4
             = Throw RangeError).
  { intros bytes1. apply view_set_too_short.
    change (byteLength (makeDWordArray (Frame.height fr))) with 4. lia. }
  destruct (Z.lt_ge_cases (viewLength h) 4) as [Hlt|Hge].
  - rewrite view_set_too_short
      by (change (byteLength (makeDWordArray (Frame.width fr))) with 4; lia).
    cbn [syn_thrown syn_urls syn_bytes ex_promise ex_urls ex_bytes].
    repeat split; try reflexivity. intros; lia.
  - assert (Hvalid : validView (byteLength buffer) h).
    { destruct (extraction_builtFrom buffer) as (_ & Hof).
      destruct (Hof h Hhdr) as (v & _ & _ & ->). apply subarray_valid. }
    rewrite (@view_set_overwrite buffer h (makeDWordArray (Frame.width fr)) 0)
      by (auto; change (byteLength (makeDWordArray (Frame.width fr))) with 4;
          lia).
    rewrite Hsecond, Z.add_0_r.
    cbn [syn_thrown syn_urls syn_bytes ex_promise ex_urls ex_bytes].
    repeat split; try reflexivity. intros; lia.
Qed.

(** A six-byte header: the promise is rejected, and the buffer has the
    width field of the header rewritten all the same. *)
Lemma short_header_throws_witness :
  ex_promise (parse png_half_header defaultOptions)
  = Rejected (Exception RangeError)
  /\ ex_urls (parse png_half_header defaultOptions) = [].
Proof.
  destruct (@short_header_throws png_half_header defaultOptions
              {| v_begin := 16; v_end := 22 |}
              {| Frame.width := 4; Frame.height := 64251; Frame.left := 0;
                 Frame.top := 0; Frame.delay := inject_Z 100;
                 Frame.disposeOp := Some 1; Frame.blendOp := Some 1;
                 Frame.dataParts := Some [ {| v_begin := 34; v_end := 36 |} ];
                 Frame.img := None |} [])
    as (Hp & Hu & _).
  - vm_compute. discriminate.
  - vm_compute. reflexivity.
  - vm_compute. reflexivity.
  - vm_compute. reflexivity.
  - split; assumption.
Defined.

(** ** What synthesis writes into the caller's buffer *)

Lemma reason_eq_dec_promise (p : promise) :
  {p = Rejected NotAnimated} + {p <> Rejected NotAnimated}.
Proof.
  destruct p as [|a|[| |e]]; (left; reflexivity) || (right; discriminate).
Qed.


Lemma sameOutside_refl (b : Z) (bytes : Uint8Array) : sameOutside b bytes bytes.
Proof. split; reflexivity. Qed.

Lemma sameOutside_set (b : Z) (bytes0 bytes bytes' : Uint8Array)
    (src : list byte) (pos : Z) :
  sameOutside b bytes0 bytes ->
  b <= pos -> pos + byteLength src <= b + 8 ->
  Uint8Array_set bytes src pos = Normal bytes' ->
  sameOutside b bytes0 bytes'.
Proof.
  intros (Hlen & Hsame) Hlo Hhi. unfold Uint8Array_set.
  destruct (Z.ltb_spec pos 0); [discriminate|].
  destruct (Z.ltb_spec (byteLength bytes) (pos + byteLength src));
    [discriminate|].
  cbn [orb]. intros [= <-]. split.
  - rewrite overwrite_length by lia. exact Hlen.
  - intros x y Hx Hxy. rewrite slice_overwrite_disjoint by lia.
    apply Hsame; assumption.
Qed.

Lemma sameOutside_view_set (bytes0 bytes bytes' : Uint8Array) (h : view)
    (src : list byte) (pos : Z) :
  sameOutside (v_begin h) bytes0 bytes ->
  pos + byteLength src <= 8 ->
  view_set bytes h src pos = Normal bytes' ->
  sameOutside (v_begin h) bytes0 bytes'.
Proof.
  intros Hsame Hhi. unfold view_set.
  destruct (Z.ltb_spec pos 0); [discriminate|].
  destruct (viewLength h <? pos + byteLength src); [discriminate|].
  cbn [orb]. apply sameOutside_set; [exact Hsame | lia | lia].
Qed.

Lemma synthFrame_sameOutside (bytes0 bytes : Uint8Array) (h : view)
    (preBlob postBlob : Uint8Array) (fr : Frame.t) :
  sameOutside (v_begin h) bytes0 bytes ->
  sameOutside (v_begin h) bytes0
    (fst (synthFrame (Some h) preBlob postBlob bytes fr)).
Proof.
  intros Hsame. unfold synthFrame.
  destruct (view_set bytes h (makeDWordArray (Frame.width fr)) 0)
    as [bytes1|e] eqn:H1; [|exact Hsame].
  assert (Hsame1 : sameOutside (v_begin h) bytes0 bytes1).
  { eapply sameOutside_view_set; [exact Hsame | | exact H1].
    change (byteLength (makeDWordArray (Frame.width fr))) with 4. lia. }
  destruct (view_set bytes1 h (makeDWordArray (Frame.height fr)) 4)
    as [bytes2|e] eqn:H2; [|exact Hsame1].
  cbn [fst]. eapply sameOutside_view_set; [exact Hsame1 | | exact H2].
  change (byteLength (makeDWordArray (Frame.height fr))) with 4. lia.
Qed.

Lemma synthFrames_sameOutside (bytes0 : Uint8Array) (h : view)
    (preBlob postBlob : Uint8Array) (frames : list Frame.t) :
  forall (bytes : Uint8Array) (f : nat),
  sameOutside (v_begin h) bytes0 bytes ->
  sameOutside (v_begin h) bytes0
    (syn_bytes (synthFrames (Some h) preBlob postBlob bytes frames f)).
Proof.
  induction frames as [|fr rest IH]; intros bytes f Hsame; [exact Hsame|].
  cbn [synthFrames].
  pose proof (@synthFrame_sameOutside bytes0 bytes h preBlob postBlob fr Hsame)
    as Hstep.
  destruct (synthFrame (Some h) preBlob postBlob bytes fr) as [bytes' [url|e]];
    cbn [fst syn_bytes] in *.
  - apply IH. exact Hstep.
  - exact Hstep.
Qed.

Lemma synthFrames_no_header (preBlob postBlob bytes : Uint8Array)
    (frames : list Frame.t) (f : nat) :
  syn_bytes (synthFrames None preBlob postBlob bytes frames f) = bytes.
Proof. destruct frames; reflexivity. Qed.

(** X6. Whatever the input and the options, the run keeps the length of the
    caller's buffer and writes at most the first eight bytes of the
    payload of the header chunk; without a header chunk, and whenever the
    promise is rejected as not animated, the buffer is as it was. *)
Theorem buffer_footprint (buffer : Uint8Array) (options : ParseOptions) :
  let r := parse buffer options in
  byteLength (ex_bytes r) = byteLength buffer
  /\ (forall h, headerDataBytes (extraction buffer) = Some h ->
        sameOutside (v_begin h) buffer (ex_bytes r))
  /\ (headerDataBytes (extraction buffer) = None -> ex_bytes r = buffer)
  /\ (ex_promise r = Rejected NotAnimated -> ex_bytes r = buffer).
Proof.
  intros r.
  assert (Hcases :
    ex_bytes r = buffer
    \/ (ex_promise r <> Rejected NotAnimated
        /\ ex_bytes r
           = syn_bytes (synthFrames (headerDataBytes (extraction buffer))
                          (Blob (preDataParts (extraction buffer)))
                          (Blob (postDataParts (extraction buffer))) buffer
                          (Animation.frames (anim (extraction buffer))) 0))).
  { destruct (reason_eq_dec_promise (ex_promise r)) as [Hrej|Hok].
    - left. subst r. unfold parse in *.
      destruct (negb (walk_state (parseChunks buffer prescan false))
                && ignoreSingle options); [reflexivity|].
      destruct (playCount options (anim (extraction buffer))); [|reflexivity].
      cbn [ex_promise] in Hrej. destruct (syn_thrown _); discriminate.
    - right. split; [exact Hok|].
      destruct (parse_passed _ _ Hok) as (a & _ & Heq).
      subst r. rewrite Heq. reflexivity. }
  assert (Hhdr : forall h, headerDataBytes (extraction buffer) = Some h ->
                           sameOutside (v_begin h) buffer (ex_bytes r)).
  { intros h Hh. destruct Hcases as [->|(_ & ->)].
    - apply sameOutside_refl.
    - rewrite Hh. apply synthFrames_sameOutside, sameOutside_refl. }
  assert (Hnone : headerDataBytes (extraction buffer) = None ->
                  ex_bytes r = buffer).
  { intros Hh. destruct Hcases as [->|(_ & ->)]; [reflexivity|].
    rewrite Hh. apply synthFrames_no_header. }
  split; [|split; [exact Hhdr | split; [exact Hnone|]]].
  - destruct (headerDataBytes (extraction buffer)) as [h|] eqn:Hh.
    + apply (Hhdr h eq_refl).
    + rewrite Hnone; reflexivity.
  - intros Hrej. destruct Hcases as [Heq|(Hok & _)]; [exact Heq|contradiction].
Qed.

(** ** The frames of the resolved Animation *)

Lemma synthFrames_lengths (hdr : option view) (preBlob postBlob : Uint8Array)
    (frames : list Frame.t) :
  forall (bytes : Uint8Array) (f : nat),
  let r := synthFrames hdr preBlob postBlob bytes frames f in
  List.length (syn_frames r) = List.length frames
  /\ (List.length (syn_urls r) <= List.length frames)%nat
  /\ (syn_thrown r = None -> List.length (syn_urls r) = List.length frames).
Proof.
  induction frames as [|fr rest IH]; intros bytes f; cbn [synthFrames].
  - cbn. auto.
  - destruct (synthFrame hdr preBlob postBlob bytes fr) as [bytes' [url|e]];
      cbn [syn_frames syn_urls syn_thrown List.length].
    + destruct (IH bytes' (Datatypes.S f)) as (H1 & H2 & H3).
      repeat split; try lia. intros Hth. rewrite (H3 Hth). reflexivity.
    + repeat split; try lia. discriminate.
Qed.

Lemma synthFrames_released (hdr : option view) (preBlob postBlob : Uint8Array)
    (frames : list Frame.t) :
  forall (bytes : Uint8Array) (f0 : nat),
  let r := synthFrames hdr preBlob postBlob bytes frames f0 in
  syn_thrown r = None ->
  forall (i : nat) (f : Frame.t),
    nth_error frames i = Some f ->
    exists g, nth_error (syn_frames r) i = Some g
      /\ sameMetadata f g
      /\ Frame.dataParts g = None
      /\ Frame.img g = Some (f0 + i)%nat.
Proof.
  induction frames as [|fr rest IH]; intros bytes f0 r Hth i f Hi.
  - destruct i; discriminate.
  - subst r. cbn [synthFrames] in *.
    destruct (synthFrame hdr preBlob postBlob bytes fr) as [bytes' [url|e]];
      cbn [syn_frames syn_thrown] in *; [|discriminate].
    destruct i as [|i]; cbn [nth_error] in *.
    + injection Hi as <-. eexists. split; [reflexivity|].
      split; [repeat split|]. split; [reflexivity|].
      cbn [Frame.withImg Frame.img]. f_equal. lia.
    + destruct (IH bytes' (Datatypes.S f0) Hth i f Hi) as (g & Hg & Hm & Hd & Himg).
      exists g. repeat split; try assumption; try apply Hm.
      rewrite Himg. f_equal. lia.
Qed.

(** X7. When synthesis runs to its end, the Animation that the promise
    will resolve with has the canvas size and play time of the extraction
    pass and as many frames; frame [i] keeps its position, size, delay and
    dispose and blend codes, has lost its [dataParts], and has image
    element [i]; one blob was made for each frame. *)
Theorem resolved_frames (buffer : Uint8Array) (options : ParseOptions) :
  ex_promise (parse buffer options) = Pending ->
  let a0 := anim (extraction buffer) in
  exists a,
    ex_anim (parse buffer options) = Some a
    /\ Animation.width a = Animation.width a0
    /\ Animation.height a = Animation.height a0
    /\ Animation.playTime a = Animation.playTime a0
    /\ List.length (Animation.frames a) = List.length (Animation.frames a0)
    /\ List.length (ex_urls (parse buffer options))
       = List.length (Animation.frames a0)
    /\ forall (i : nat) (f : Frame.t),
         nth_error (Animation.frames a0) i = Some f ->
         exists g, nth_error (Animation.frames a) i = Some g
           /\ sameMetadata f g
           /\ Frame.dataParts g = None
           /\ Frame.img g = Some i.
Proof.
  intros Hp a0.
  assert (Hok : ex_promise (parse buffer options) <> Rejected NotAnimated)
    by (rewrite Hp; discriminate).
  destruct (parse_passed _ _ Hok) as (a & Hpc & Heq).
  rewrite Heq in Hp |- *. cbn [ex_promise ex_anim ex_urls] in *.
  set (r := synthFrames (headerDataBytes (extraction buffer))
              (Blob (preDataParts (extraction buffer)))
              (Blob (postDataParts (extraction buffer))) buffer
              (Animation.frames (anim (extraction buffer))) 0) in *.
  assert (Hth : syn_thrown r = None) by (destruct (syn_thrown r); congruence).
  destruct (synthFrames_lengths (headerDataBytes (extraction buffer))
              (Blob (preDataParts (extraction buffer)))
              (Blob (postDataParts (extraction buffer)))
              (Animation.frames (anim (extraction buffer))) buffer 0)
    as (Hlen & _ & Hurls).
  fold r in Hlen, Hurls.
  assert (Hfields : Animation.width a = Animation.width a0
                    /\ Animation.height a = Animation.height a0
                    /\ Animation.playTime a = Animation.playTime a0).
  { unfold playCount in Hpc. fold a0 in Hpc.
    destruct (Z.of_nat (List.length (Animation.frames a0)) <=? 1);
      destruct (ignoreSingle options); destruct (forceLoop options);
      injection Hpc as <- || discriminate; repeat split. }
  destruct Hfields as (Hw & Hh & Ht).
  eexists. split; [reflexivity|].
  cbn [Animation.withFrames Animation.width Animation.height
       Animation.playTime Animation.frames].
  repeat split; try assumption; [exact (Hurls Hth)|].
  intros i f Hi.
  destruct (synthFrames_released (headerDataBytes (extraction buffer))
              (Blob (preDataParts (extraction buffer)))
              (Blob (postDataParts (extraction buffer)))
              (Animation.frames (anim (extraction buffer))) buffer 0 Hth i Hi)
    as (g & Hg & Hm & Hd & Himg).
  exists g. auto.
Qed.

Lemma resolved_frames_witness :
  ex_promise (parse apng_two_frames defaultOptions) = Pending
  /\ List.length (ex_urls (parse apng_two_frames defaultOptions)) = 2%nat.
Proof.
  assert (Hp : ex_promise (parse apng_two_frames defaultOptions) = Pending)
    by (vm_compute; reflexivity).
  split; [exact Hp|].
  destruct (resolved_frames apng_two_frames defaultOptions Hp)
    as (a & _ & _ & _ & _ & _ & Hurls & _).
  rewrite Hurls. vm_compute. reflexivity.
Defined.

(** X8. The options decide whether the promise is rejected as not animated
    and what [numPlays] is, and nothing else: two runs on the same input
    that both pass the policy leave the same promise, the same blobs and
    the same buffer. *)
Theorem options_only_policy (buffer : Uint8Array) (o1 o2 : ParseOptions) :
  ex_promise (parse buffer o1) <> Rejected NotAnimated ->
  ex_promise (parse buffer o2) <> Rejected NotAnimated ->
  ex_promise (parse buffer o1) = ex_promise (parse buffer o2)
  /\ ex_urls (parse buffer o1) = ex_urls (parse buffer o2)
  /\ ex_bytes (parse buffer o1) = ex_bytes (parse buffer o2).
Proof.
  intros H1 H2.
  destruct (parse_passed _ _ H1) as (a1 & _ & ->).
  destruct (parse_passed _ _ H2) as (a2 & _ & ->).
  repeat split.
Qed.

Lemma options_only_policy_witness :
  ex_urls (parse apng_two_frames defaultOptions)
  = ex_urls (parse apng_two_frames forceLoopOptions).
Proof.
  destruct (@options_only_policy apng_two_frames defaultOptions
              forceLoopOptions) as (_ & Hu & _).
  - vm_compute. discriminate.
  - vm_compute. discriminate.
  - exact Hu.
Defined.

(** ** The image events *)

Lemma existsb_eqb_In (f : nat) (l : list nat) :
  existsb (Nat.eqb f) l = true <-> In f l.
Proof.
  rewrite existsb_exists. split.
  - intros (g & Hg & Heq). apply Nat.eqb_eq in Heq. now subst g.
  - intros Hin. exists f. split; [exact Hin | apply Nat.eqb_refl].
Qed.

Lemma remove_image_In (f g : nat) (l : list nat) :
  In g (remove_image f l) <-> In g l /\ g <> f.
Proof.
  unfold remove_image. rewrite filter_In.
  destruct (Nat.eqb_spec f g); cbn [negb]; intuition congruence.
Qed.

Lemma remove_image_length (f : nat) (l : list nat) :
  NoDup l -> In f l ->
  (List.length (remove_image f l) + 1 = List.length l)%nat.
Proof.
  unfold remove_image. induction 1 as [|g l Hg Hnd IH]; intros Hin.
  - contradiction.
  - cbn [filter]. destruct (Nat.eqb_spec f g) as [->|Hne]; cbn [negb List.length].
    + assert (Hid : filter (fun x => negb (g =? x)%nat) l = l).
      { clear IH Hin Hnd. induction l as [|x l IHl]; [reflexivity|].
        cbn [filter]. destruct (Nat.eqb_spec g x) as [->|_].
        - exfalso. apply Hg. left. reflexivity.
        - cbn [negb]. f_equal. apply IHl. intros H. apply Hg. right. exact H. }
      rewrite Hid. lia.
    + destruct Hin as [->|Hin]; [contradiction|]. rewrite <- (IH Hin). lia.
Qed.

Lemma parse_urls_bound (buffer : Uint8Array) (options : ParseOptions) :
  let r := parse buffer options in
  Z.of_nat (List.length (ex_urls r)) <= frameCount (ex_anim r)
  /\ (ex_promise r = Pending ->
      Z.of_nat (List.length (ex_urls r)) = frameCount (ex_anim r))
  /\ (forall a, ex_promise r <> Fulfilled a).
Proof.
  intros r. subst r. unfold parse.
  destruct (negb (walk_state (parseChunks buffer prescan false))
            && ignoreSingle options).
  { cbn [ex_promise ex_urls ex_anim frameCount List.length].
    repeat split; try discriminate; lia. }
  destruct (playCount options (anim (extraction buffer))) as [a|] eqn:Hpc.
  2:{ cbn [ex_promise ex_urls ex_anim frameCount List.length].
      repeat split; try discriminate; lia. }
  cbn [ex_promise ex_urls ex_anim frameCount Animation.withFrames
       Animation.frames].
  destruct (synthFrames_lengths (headerDataBytes (extraction buffer))
              (Blob (preDataParts (extraction buffer)))
              (Blob (postDataParts (extraction buffer)))
              (Animation.frames a) buffer 0) as (Hlen & Hle & Heq).
  rewrite Hlen. repeat split.
  - lia.
  - intros Hp. rewrite Heq; [reflexivity|].
    destruct (syn_thrown _); [discriminate | reflexivity].
  - intros a'. destruct (syn_thrown _); discriminate.
Qed.

(** What holds of every page that the events can lead to. *)
Lemma reachable_invariant (buffer : Uint8Array) (options : ParseOptions)
    (p : page) :
  let r := parse buffer options in
  reachable (page_of r) p ->
  NoDup (pg_images p)
  /\ pg_anim p = ex_anim r
  /\ 0 <= pg_createdImages p
  /\ pg_createdImages p + Z.of_nat (List.length (pg_images p))
     <= frameCount (ex_anim r)
  /\ (forall a, pg_promise p = Fulfilled a ->
        ex_anim r = Some a /\ pg_createdImages p = frameCount (ex_anim r)).
Proof.
  intros r Hreach.
  destruct (parse_urls_bound buffer options) as (Hbound & _ & Hnotful).
  fold r in Hbound, Hnotful.
  induction Hreach as [|q e p Hreach IH Hfire].
  - unfold page_of. cbn [pg_images pg_anim pg_createdImages pg_promise].
    rewrite length_seq.
    split; [apply seq_NoDup|]. split; [reflexivity|].
    split; [lia|]. split; [lia|].
    intros b Hb. elim (Hnotful b Hb).
  - destruct IH as (Hnd & Hanim & Hpos & Hsum & Hful).
    unfold fire in Hfire. destruct e as [f|f];
      (destruct (existsb (Nat.eqb f) (pg_images q)) eqn:Hin;
       [|discriminate]); apply existsb_eqb_In in Hin;
      injection Hfire as <-;
      cbn [pg_images pg_anim pg_createdImages pg_promise];
      pose proof (@remove_image_length f (pg_images q) Hnd Hin) as Hlen;
      (split; [apply NoDup_filter, Hnd|]);
      (split; [exact Hanim|]); (split; [lia|]); (split; [lia|]).
    + intros b Ha. rewrite Hanim in Ha.
      destruct (Z.eqb_spec (pg_createdImages q + 1) (frameCount (ex_anim r)))
        as [Heq|Hne].
      * split; [|exact Heq].
        destruct (ex_anim r) as [a'|] eqn:Hr.
        -- destruct (pg_promise q) eqn:Hq; cbn [settle] in Ha.
           ++ congruence.
           ++ destruct (Hful _ eq_refl) as (Hsome & _). congruence.
           ++ discriminate.
        -- destruct (Hful b Ha) as (Hsome & _). discriminate.
      * destruct (Hful b Ha) as (_ & Hc). lia.
    + intros b Ha. destruct (pg_promise q) eqn:Hq; cbn [settle] in Ha;
        try discriminate.
      destruct (Hful b Ha) as (_ & Hc). lia.
Qed.

(** X9. The promise is fulfilled only when every image has loaded: in every
    page the events can lead to, a fulfilled promise holds the Animation of
    the run, as many images have loaded as there are frames, and no handler
    is left to run. *)
Theorem fulfilled_when_all_loaded (buffer : Uint8Array)
    (options : ParseOptions) (p : page) (a : Animation.t) :
  reachable (page_of (parse buffer options)) p ->
  pg_promise p = Fulfilled a ->
  ex_anim (parse buffer options) = Some a
  /\ pg_createdImages p = Z.of_nat (List.length (Animation.frames a))
  /\ pg_images p = []
  /\ ex_promise (parse buffer options) = Pending.
Proof.
  intros Hreach Hful.
  destruct (reachable_invariant buffer options Hreach)
    as (_ & _ & _ & Hsum & Hinv).
  destruct (Hinv a Hful) as (Hsome & Hc).
  rewrite Hsome in Hc, Hsum. cbn [frameCount] in Hc, Hsum.
  repeat split; try assumption.
  - destruct (pg_images p); [reflexivity|]. cbn [List.length] in Hsum. lia.
  - destruct (ex_promise (parse buffer options)) as [|a'|re] eqn:Hp;
      [reflexivity| |].
    + destruct (parse_urls_bound buffer options) as (_ & _ & Hnot).
      elim (Hnot a' Hp).
    + exfalso.
      assert (Hstay : forall q, reachable (page_of (parse buffer options)) q ->
                                pg_promise q = Rejected re).
      { intros q Hq. induction Hq as [|q e q' _ IH Hfire].
        - exact Hp.
        - destruct (fire_promise _ _ Hfire) as [->|(Hpend & _)];
            [exact IH | congruence]. }
      rewrite (Hstay p Hreach) in Hful. discriminate.
Qed.

Lemma fireAll_reachable (es : list event) :
  forall p q, fireAll p es = Some q -> reachable p q.
Proof.
  assert (Htrans : forall p q r, reachable p q -> reachable q r ->
                                 reachable p r).
  { intros p q r Hpq Hqr. induction Hqr; [exact Hpq|].
    eapply reach_step; eassumption. }
  induction es as [|e es IH]; intros p q; cbn [fireAll].
  - intros [= <-]. constructor.
  - destruct (fire p e) as [p'|] eqn:Hfire; [|discriminate].
    intros Hrest. apply Htrans with p'.
    + eapply reach_step; [constructor | exact Hfire].
    + apply IH, Hrest.
Qed.

(** The plain PNG has one frame; once its image has loaded, the promise is
    fulfilled. *)
Lemma fulfilled_when_all_loaded_witness :
  exists p a,
    fireAll (page_of (parse png_static defaultOptions)) [Load 0%nat] = Some p
    /\ pg_promise p = Fulfilled a
    /\ pg_createdImages p = 1 /\ pg_images p = [].
Proof.
  assert (Hsome : fireAll (page_of (parse png_static defaultOptions))
                    [Load 0%nat] <> None) by (vm_compute; discriminate).
  destruct (fireAll (page_of (parse png_static defaultOptions)) [Load 0%nat])
    as [p|] eqn:Hfire; [|contradiction].
  assert (Hful : exists a, pg_promise p = Fulfilled a).
  { assert (Hb : match fireAll (page_of (parse png_static defaultOptions))
                         [Load 0%nat] with
                 | Some q => match pg_promise q with
                             | Fulfilled _ => true
                             | _ => false
                             end
                 | None => false
                 end = true) by (vm_compute; reflexivity).
    rewrite Hfire in Hb. destruct (pg_promise p); try discriminate Hb. eauto. }
  destruct Hful as (a & Hful).
  destruct (@fulfilled_when_all_loaded png_static defaultOptions p a
              (fireAll_reachable _ _ Hfire) Hful) as (Ha & Hc & Hi & _).
  exists p, a. repeat split; try assumption.
  rewrite Hc.
  assert (Hn : match ex_anim (parse png_static defaultOptions) with
               | Some b => Z.of_nat (List.length (Animation.frames b))
               | None => 0
               end = 1) by (vm_compute; reflexivity).
  rewrite Ha in Hn. exact Hn.
Defined.

Lemma reachable_settled (p q : page) :
  reachable p q -> pg_promise p <> Pending -> pg_promise q = pg_promise p.
Proof.
  intros Hreach Hset. induction Hreach as [|q e r _ IH Hfire]; [reflexivity|].
  destruct (fire_promise _ _ Hfire) as [->|(Hpend & _)]; [exact IH|].
  congruence.
Qed.

(** X10. All or nothing: while the promise is pending, the error of any
    image that has not reported yet rejects it with "Image creation
    error", and nothing that happens afterwards changes that. *)
Theorem image_error_rejects (p : page) (f : nat) :
  pg_promise p = Pending ->
  In f (pg_images p) ->
  exists q,
    fire p (Error f) = Some q
    /\ pg_promise q = Rejected ImageCreationError
    /\ forall q', reachable q q' ->
                  pg_promise q' = Rejected ImageCreationError.
Proof.
  intros Hpend Hin. unfold fire.
  rewrite (proj2 (existsb_eqb_In f (pg_images p)) Hin).
  eexists. split; [reflexivity|].
  cbn [pg_promise]. rewrite Hpend. cbn [settle].
  split; [reflexivity|].
  intros q' Hq'. apply reachable_settled in Hq'.
  - rewrite Hq'. reflexivity.
  - cbn [pg_promise]. discriminate.
Qed.

(** In the sample animation, the error of the second image rejects the
    promise, and the load of the first one afterwards leaves it rejected. *)
Lemma image_error_rejects_witness :
  exists q q',
    fire (page_of (parse apng_two_frames defaultOptions)) (Error 1%nat) = Some q
    /\ fire q (Load 0%nat) = Some q'
    /\ pg_promise q' = Rejected ImageCreationError.
Proof.
  destruct (@image_error_rejects
              (page_of (parse apng_two_frames defaultOptions)) 1%nat)
    as (q & Hq & _ & Hstay).
  - vm_compute. reflexivity.
  - assert (Hb : existsb (Nat.eqb 1)
                   (pg_images (page_of (parse apng_two_frames defaultOptions)))
                 = true) by (vm_compute; reflexivity).
    exact (proj1 (@existsb_eqb_In 1%nat
                    (pg_images (page_of (parse apng_two_frames
                                           defaultOptions)))) Hb).
  - assert (Hload : match fire (page_of (parse apng_two_frames defaultOptions))
                            (Error 1%nat) with
                    | Some x => fire x (Load 0%nat) <> None
                    | None => False
                    end) by (vm_compute; discriminate).
    rewrite Hq in Hload.
    destruct (fire q (Load 0%nat)) as [q'|] eqn:Hq'; [|contradiction].
    exists q, q'. repeat split; try assumption.
    apply Hstay. eapply reach_step; [constructor | exact Hq'].
Defined.

Lemma loads_fulfil (a : Animation.t) (l : list nat) :
  forall p : page,
  NoDup l -> incl l (pg_images p) ->
  pg_promise p = Pending -> pg_anim p = Some a ->
  pg_createdImages p + Z.of_nat (List.length l) = frameCount (Some a) ->
  l <> [] ->
  exists q, fireAll p (map Load l) = Some q
            /\ pg_promise q = Fulfilled a
            /\ pg_createdImages q = frameCount (Some a).
Proof.
  induction l as [|f l IH]; intros p Hnd Hincl Hpend Hanim Hsum Hne;
    [contradiction|].
  inversion Hnd as [|? ? Hf Hnd']; subst.
  cbn [map fireAll]. unfold fire.
  rewrite (proj2 (existsb_eqb_In f (pg_images p)) (Hincl f (or_introl eq_refl))).
  rewrite Hanim, Hpend. cbn [settle List.length] in *.
  destruct l as [|g l]; cbn [List.length] in Hsum.
  - destruct (Z.eqb_spec (pg_createdImages p + 1) (frameCount (Some a)));
      [|lia].
    cbn [map fireAll]. eexists. split; [reflexivity|].
    cbn [pg_promise pg_createdImages]. split; [reflexivity | assumption].
  - destruct (Z.eqb_spec (pg_createdImages p + 1) (frameCount (Some a)))
      as [Heq|_]; [cbn [List.length] in Hsum; lia|].
    apply IH; cbn [pg_images pg_promise pg_anim pg_createdImages];
      try assumption; try discriminate; try reflexivity.
    + intros x Hx. apply remove_image_In. split.
      * apply Hincl. right. exact Hx.
      * intros ->. contradiction.
    + cbn [List.length] in *. lia.
Qed.

(** X11. When the executor leaves the promise pending and there is at least
    one frame, the loads of all the images, in whatever order they come,
    fulfil the promise with the Animation of the run. *)
Theorem all_loads_fulfil (buffer : Uint8Array) (options : ParseOptions)
    (l : list nat) :
  let r := parse buffer options in
  ex_promise r = Pending ->
  ex_urls r <> [] ->
  NoDup l ->
  (forall f, In f l <-> (f < List.length (ex_urls r))%nat) ->
  exists q a,
    fireAll (page_of r) (map Load l) = Some q
    /\ ex_anim r = Some a
    /\ pg_promise q = Fulfilled a.
Proof.
  intros r Hpend Hurls Hnd Hall.
  destruct (parse_urls_bound buffer options) as (_ & Hcount & _).
  fold r in Hcount. specialize (Hcount Hpend).
  assert (Hlen : List.length l = List.length (ex_urls r)).
  { apply Nat.le_antisymm.
    - rewrite <- (length_seq (List.length (ex_urls r)) 0).
      apply NoDup_incl_length; [exact Hnd|].
      intros f Hf. apply in_seq. apply Hall in Hf. lia.
    - rewrite <- (length_seq (List.length (ex_urls r)) 0) at 1.
      apply NoDup_incl_length; [apply seq_NoDup|].
      intros f Hf. apply in_seq in Hf. apply Hall. lia. }
  destruct (ex_anim r) as [a|] eqn:Hanim.
  2:{ cbn [frameCount] in Hcount.
      destruct (ex_urls r); [contradiction | discriminate]. }
  destruct (@loads_fulfil a l (page_of r)) as (q & Hq & Hful & _);
    unfold page_of; cbn [pg_images pg_promise pg_anim pg_createdImages];
    try assumption.
  - intros f Hf. apply in_seq. apply Hall in Hf. lia.
  - rewrite Hlen. lia.
  - intros ->. cbn [List.length] in Hlen.
    destruct (ex_urls r); [contradiction | discriminate].
  - exists q, a. auto.
Qed.

(** The second image of the sample animation loads before the first. *)
Lemma all_loads_fulfil_witness :
  exists q a,
    fireAll (page_of (parse apng_two_frames defaultOptions))
            [Load 1%nat; Load 0%nat] = Some q
    /\ pg_promise q = Fulfilled a.
Proof.
  assert (Hn : List.length (ex_urls (parse apng_two_frames defaultOptions))
               = 2%nat) by (vm_compute; reflexivity).
  destruct (@all_loads_fulfil apng_two_frames defaultOptions [1; 0]%nat)
    as (q & a & Hq & _ & Hful).
  - vm_compute. reflexivity.
  - intros Hnil. rewrite Hnil in Hn. discriminate Hn.
  - repeat constructor; cbn [In]; intuition discriminate.
  - intros f. rewrite Hn. cbn [In]. lia.
  - exists q, a. split; assumption.
Defined.

(** ** Where a walk ends *)

Lemma walk_last {S : Type} (bytes : Uint8Array) (callback : ParseCallback S)
    (s : S) :
  exists pre v,
    walk_visits (parseChunks bytes callback s) = pre ++ [v]
    /\ stops bytes v
    /\ Forall (fun u => ~ stops bytes u) pre.
Proof.
  pose proof (parseChunks_run bytes callback s) as Hrun.
  apply parseChunks_loop_spec in Hrun. destruct Hrun as (Hne & _ & _ & Hall).
  destruct (exists_last Hne) as (pre & v & Heq).
  exists pre, v. split; [exact Heq|]. split.
  - destruct (Hall pre v [] Heq) as (_ & _ & _ & _ & Hlast).
    apply Hlast. reflexivity.
  - apply Forall_forall. intros u Hu Hstop.
    destruct (in_split _ _ Hu) as (p1 & p2 & ->).
    rewrite <- app_assoc in Heq. cbn [app] in Heq.
    destruct (Hall _ _ _ Heq) as (_ & _ & _ & _ & Hlast).
    apply Hlast in Hstop. destruct p2; discriminate.
Qed.

Lemma walk_result {S : Type} (bytes : Uint8Array) (callback : ParseCallback S)
    (s : S) (u : visit) :
  In u (walk_visits (parseChunks bytes callback s)) ->
  exists s', fst (callback (vis_type u) bytes (vis_off u) (vis_length u) s')
             = vis_res u.
Proof.
  intros Hu.
  pose proof (parseChunks_run bytes callback s) as Hrun.
  apply parseChunks_loop_spec in Hrun. destruct Hrun as (_ & _ & _ & Hall).
  destruct (in_split _ _ Hu) as (p1 & p2 & Heq).
  destruct (Hall _ _ _ Heq) as (_ & _ & _ & Hcb & _).
  eexists. rewrite Hcb. reflexivity.
Qed.

(** X12. The pre-scan goes no further than the first "acTL" chunk: no visit
    but the last is for one, and [isAnimated] tells whether the last one
    is. *)
Theorem prescan_stops_at_acTL (buffer : Uint8Array) :
  let w := parseChunks buffer prescan false in
  exists pre v,
    walk_visits w = pre ++ [v]
    /\ Forall (fun u => vis_type u <> "acTL"%string) pre
    /\ walk_state w = hasType "acTL" v.
Proof.
  intros w. subst w.
  destruct (walk_last buffer prescan false) as (pre & v & Heq & _ & Hpre).
  exists pre, v. split; [exact Heq|].
  assert (Hno : Forall (fun u => vis_type u <> "acTL"%string) pre).
  { apply Forall_forall. intros u Hu Htype.
    rewrite Forall_forall in Hpre. apply (Hpre u Hu).
    left.
    destruct (@walk_result _ buffer prescan false u) as (s' & Hres).
    { rewrite Heq. apply in_or_app. left. exact Hu. }
    rewrite <- Hres. unfold prescan. rewrite Htype. reflexivity. }
  split; [exact Hno|].
  rewrite prescan_isAnimated, Heq, existsb_app. cbn [existsb].
  rewrite orb_false_r.
  replace (existsb (hasType "acTL") pre) with false; [reflexivity|].
  symmetry. apply not_true_is_false. intros Hex.
  apply existsb_exists in Hex. destruct Hex as (u & Hu & Htype).
  rewrite Forall_forall in Hno. apply (Hno u Hu).
  unfold hasType in Htype. apply String.eqb_eq. exact Htype.
Qed.

(** X13. The extraction pass ends with an "IEND" chunk or at the end of the
    buffer, never before: no chunk but the last visited is an "IEND"
    chunk, so the epilogue group holds that one chunk or nothing. *)
Theorem extraction_ends_at_IEND (buffer : Uint8Array) :
  let w := parseChunks buffer extract builder_init in
  exists pre v,
    walk_visits w = pre ++ [v]
    /\ Forall (fun u => vis_type u <> "IEND"%string) pre
    /\ (vis_type v = "IEND"%string
        \/ byteLength buffer <= vis_off v + (12 + vis_length v))
    /\ postDataParts (extraction buffer)
       = if hasType "IEND" v then [chunkCopy buffer v] else [].
Proof.
  intros w. subst w.
  destruct (walk_last buffer extract builder_init)
    as (pre & v & Heq & Hstop & Hpre).
  exists pre, v. split; [exact Heq|].
  assert (Hno : Forall (fun u => vis_type u <> "IEND"%string) pre).
  { eapply Forall_impl; [|exact Hpre].
    intros u Hu Htype. apply Hu. right. left. exact Htype. }
  split; [exact Hno|]. split.
  - destruct Hstop as [Hres|Hstop]; [|exact Hstop].
    destruct (@walk_result _ buffer extract builder_init v) as (s' & Hr).
    { rewrite Heq. apply in_or_app. right. left. reflexivity. }
    rewrite Hres in Hr. discriminate Hr.
  - unfold extraction. cbn [postDataParts]. rewrite parseChunks_state.
    rewrite (proj2 (extract_groups buffer _ builder_init)), Heq.
    cbn [postDataParts builder_init app].
    rewrite filter_app. cbn [filter].
    replace (filter (hasType "IEND") pre) with (@nil visit).
    + cbn [app]. destruct (hasType "IEND" v); reflexivity.
    + symmetry. clear - Hno. induction pre as [|u pre IH]; [reflexivity|].
      inversion Hno as [|? ? Hu Hrest]; subst. cbn [filter]. unfold hasType at 1.
      destruct (String.eqb_spec (vis_type u) "IEND"); [contradiction|].
      apply IH, Hrest.
Qed.


(** ** The chunk writer on any tag *)

Lemma Uint8Array_set_fits (target : Uint8Array) (src : list byte) (pos : Z) :
  0 <= pos -> pos + byteLength src <= byteLength target ->
  Uint8Array_set target src pos = Normal (overwrite target pos src).
Proof.
  intros Hpos Hfit. unfold Uint8Array_set.
  destruct (Z.ltb_spec pos 0); [lia|].
  destruct (Z.ltb_spec (byteLength target) (pos + byteLength src)); [lia|].
  reflexivity.
Qed.

(** X15. [makeChunkBytes] never throws, whatever the length of the tag: none
    of its four writes falls outside the array it has allocated.  The
    result has [type.length + dataBytes.length + 8] bytes and begins with
    the big-endian length of the payload. *)
Theorem makeChunkBytes_total (type : string) (dataBytes : Uint8Array) :
  exists out : Uint8Array,
    makeChunkBytes type dataBytes = Normal out
    /\ byteLength out
       = Z.of_nat (String.length type) + byteLength dataBytes + 8
    /\ slice out 0 4 = makeDWordArray (byteLength dataBytes).
Proof.
  unfold makeChunkBytes.
  set (t := Z.of_nat (String.length type)).
  set (n := byteLength dataBytes).
  set (dw := makeDWordArray n).
  assert (Ht : 0 <= t) by (unfold t; lia).
  assert (Hn : 0 <= n) by (unfold n; apply byteLength_nonneg).
  assert (Htag : byteLength (makeStringArray type) = t)
    by (unfold byteLength; rewrite makeStringArray_length; reflexivity).
  set (b0 := repeat x00 (Z.to_nat (t + n + 8))).
  assert (H0 : byteLength b0 = t + n + 8)
    by (unfold b0, byteLength; rewrite repeat_length; lia).
  rewrite (@Uint8Array_set_fits b0 dw 0)
    by (change (byteLength dw) with 4; lia).
  cbn [bind].
  set (b1 := overwrite b0 0 dw).
  assert (H1 : byteLength b1 = t + n + 8).
  { unfold b1. rewrite overwrite_length; [exact H0 | lia |].
    change (byteLength dw) with 4. lia. }
  rewrite (@Uint8Array_set_fits b1 (makeStringArray type) 4) by lia.
  cbn [bind].
  set (b2 := overwrite b1 4 (makeStringArray type)).
  assert (H2 : byteLength b2 = t + n + 8)
    by (unfold b2; rewrite overwrite_length; [exact H1 | lia | lia]).
  rewrite (@Uint8Array_set_fits b2 dataBytes 8) by (fold n; lia).
  cbn [bind].
  set (b3 := overwrite b2 8 dataBytes).
  assert (H3 : byteLength b3 = t + n + 8)
    by (unfold b3; rewrite overwrite_length; [exact H2 | lia | fold n; lia]).
  set (crc := makeDWordArray (crc32 b3 4 (t + n))).
  rewrite (@Uint8Array_set_fits b3 crc (t + n + 4))
    by (change (byteLength crc) with 4; lia).
  eexists. split; [reflexivity|]. split.
  - rewrite overwrite_length; [exact H3 | lia |].
    change (byteLength crc) with 4. lia.
  - rewrite slice_overwrite_disjoint
      by (change (byteLength crc) with 4; lia).
    unfold b3. rewrite slice_overwrite_disjoint by (fold n; lia).
    unfold b2. rewrite slice_overwrite_disjoint by lia.
    unfold b1. change 4 with (0 + byteLength dw) at 1.
    apply slice_overwrite_same; [lia|].
    change (byteLength dw) with 4. lia.
Qed.
